(** * IRNet: iteratively reweighted network design

    A shallow embedding of the network-planning code of [src/IRNet_SST.py]
    and [src/Dopt_placement.py].

    Conventions.
    - NumPy vectors of floats are lists of rationals ([Q]); comparisons and
      arithmetic are exact.  Index lists are lists of [nat].
    - Python exceptions are values of [exn]; a computation that may raise
      returns a [result].
    - The solver object [sensor_placement] (module [sensor_placement], class
      [SensorPlacement]) is external to the two scripts.  Its [solve()] is
      modelled by the sequence [hs] of vectors it leaves in [h.value], one
      per call. *)

From Stdlib Require Import QArith Lia Lqa.
From stdpp Require Import base list sorting.

Set Default Proof Using "Type".

(** ** Exceptions *)

Inductive exn : Type :=
| IndexError
| ValueError
| LinAlgError.

Inductive result (A : Type) : Type :=
| Ok (a : A)
| Raise (e : exn).

Arguments Ok {A} a.
Arguments Raise {A} e.

#[global] Instance result_bind : MBind result :=
  fun A B (f : A -> result B) (r : result A) =>
    match r with
    | Ok a => f a
    | Raise e => Raise e
    end.

(** ** The NumPy operations the scripts use *)

Module Numpy.

(** [np.argwhere(p(h))] for a one-dimensional [h]: the positions whose entry
    satisfies [p], in increasing order. *)
Fixpoint argwhere_from (k : nat) (p : Q -> bool) (h : list Q) : list nat :=
  match h with
  | [] => []
  | x :: t => if p x then k :: argwhere_from (S k) p t
              else argwhere_from (S k) p t
  end.

Definition argwhere (p : Q -> bool) (h : list Q) : list nat :=
  argwhere_from 0 p h.

(** [np.argsort(h)]: the indices of [h] ordered by increasing entry.  Equal
    entries keep their original order, as the insertion sort NumPy runs on
    short arrays leaves them. *)
Definition key (h : list Q) (i : nat) : Q := nth i h 0%Q.

Fixpoint insert_by (h : list Q) (i : nat) (l : list nat) : list nat :=
  match l with
  | [] => [i]
  | j :: l' => if Qle_bool (key h i) (key h j) then i :: j :: l'
               else j :: insert_by h i l'
  end.

Definition argsort (h : list Q) : list nat :=
  foldr (insert_by h) [] (seq 0 (length h)).

(** The order [argsort] sorts by: by entry, and by position among equal
    entries. *)
Definition before (h : list Q) (i j : nat) : Prop :=
  (key h i < key h j)%Q \/ ((key h i == key h j)%Q /\ i < j).

(** [a - b] with NumPy broadcasting of one-dimensional shapes. *)
Fixpoint zip_sub (a b : list Q) : list Q :=
  match a, b with
  | x :: a', y :: b' => (x - y)%Q :: zip_sub a' b'
  | _, _ => []
  end.

Definition sub (a b : list Q) : result (list Q) :=
  if length a =? length b then Ok (zip_sub a b)
  else match a, b with
       | _, [y] => Ok (map (fun x => x - y)%Q a)
       | [x], _ => Ok (map (fun y => x - y)%Q b)
       | _, _ => Raise ValueError
       end.

(** [np.linalg.norm(v) <= c], decided without the square root. *)
Definition sum_squares (v : list Q) : Q :=
  foldr (fun x acc => x * x + acc)%Q 0%Q v.

Definition norm_le (v : list Q) (c : Q) : bool :=
  Qle_bool 0 c && Qle_bool (sum_squares v) (c * c).

(** [h[idx] = v] for a list [idx] of positions: an out-of-range position
    raises [IndexError]. *)
Fixpoint set_at (idx : list nat) (v : Q) (h : list Q) : result (list Q) :=
  match idx with
  | [] => Ok h
  | i :: idx' =>
      if i <? length h then set_at idx' v (<[i := v]> h)
      else Raise IndexError
  end.

End Numpy.

(** ** [networkPlanning_iterative] *)

Module IRL1.
Import Numpy.

(** The list object behind [sensor_placement.locations_monitored].

    Modelled from the spec: [SensorPlacement.initialize_problem] is not part
    of the two scripts.  The spec has the stall-breaking step freeze its index
    "into S", which is what the source line does when the object keeps the
    very list it was given ([Shared]).  [Own l] is the other possibility: the
    object holds a list [l] of its own. *)
Inductive mon_ref : Type :=
| Shared
| Own (l : list nat).

Record state : Type := mkState {
  locations_monitored : list nat;
  locations_unmonitored : list nat;
  sp_locations_monitored : mon_ref;
  h_value : list Q;
  w_value : list Q;
  h_prev : list Q;
  it : nat
}.

(** Reading [sensor_placement.locations_monitored]. *)
Definition sp_monitored (st : state) : list nat :=
  match sp_locations_monitored st with
  | Shared => locations_monitored st
  | Own l => l
  end.

(** [sensor_placement.locations_monitored += add]: in place, so a shared list
    grows for the caller too. *)
Definition sp_extend (add : list nat) (st : state) : state :=
  match sp_locations_monitored st with
  | Shared =>
      mkState (locations_monitored st ++ add) (locations_unmonitored st)
        Shared (h_value st) (w_value st) (h_prev st) (it st)
  | Own l =>
      mkState (locations_monitored st) (locations_unmonitored st)
        (Own (l ++ add)) (h_value st) (w_value st) (h_prev st) (it st)
  end.

Section Planner.

Variable n : nat.          (* sensor_placement.n *)
Variable epsilon : Q.
Variable n_it : nat.

(** [sensor_placement.solve()] leaves the solver's vector in [h.value]. *)
Definition solve (h : list Q) (st : state) : state :=
  mkState (locations_monitored st) (locations_unmonitored st)
    (sp_locations_monitored st) h (w_value st) (h_prev st) (it st).

Definition above (h : list Q) : list nat :=
  argwhere (fun x => Qle_bool (1 - epsilon) x) h.

Definition below (h : list Q) : list nat :=
  argwhere (fun x => Qle_bool x epsilon) h.

(** [[i for i in cand if i not in l]] *)
Definition fresh (l : list nat) (cand : list nat) : list nat :=
  filter (fun i => i ∉ l) cand.

(** [# update sets] *)
Definition update_sets (st : state) : state :=
  mkState
    (locations_monitored st ++ fresh (locations_monitored st) (above (h_value st)))
    (locations_unmonitored st ++ fresh (locations_unmonitored st) (below (h_value st)))
    (sp_locations_monitored st) (h_value st) (w_value st) (h_prev st) (it st).

Definition set_it (k : nat) (st : state) : state :=
  mkState (locations_monitored st) (locations_unmonitored st)
    (sp_locations_monitored st) (h_value st) (w_value st) (h_prev st) k.

(** The test of [# check convergence]. *)
Definition stalled (st : state) : result bool :=
  d ← sub (h_value st) (h_prev st);
  Ok (norm_le d epsilon || (it st =? n_it)).

(** The body of the [if]: the first index of the reversed [argsort] that is
    not in [sensor_placement.locations_monitored]. *)
Definition force_freeze (st : state) : result state :=
  match fresh (sp_monitored st) (rev (argsort (h_value st))) with
  | [] => Raise IndexError
  | p :: _ => Ok (set_it 0 (sp_extend [p] st))
  end.

Definition check_convergence (st : state) : result state :=
  b ← stalled st;
  if b : bool then force_freeze st else Ok st.

(** [# update parameters], with the copy into [h_prev] that precedes it.
    Where [h_i + epsilon] is zero NumPy yields [inf]; the division of [Q]
    yields 0 there. *)
Definition update_parameters (st : state) : result state :=
  let hp := h_value st in
  let w := map (fun x => 1 / (x + epsilon))%Q hp in
  h1 ← set_at (locations_monitored st) 1%Q (h_value st);
  h2 ← set_at (locations_unmonitored st) 0%Q h1;
  Ok (mkState (locations_monitored st) (locations_unmonitored st)
        (sp_locations_monitored st) h2 w hp (it st + 1)).

(** One pass through the body of the [while]. *)
Definition outer_pass (h : list Q) (st : state) : result state :=
  st1 ← check_convergence (update_sets (solve h st));
  update_parameters st1.

Definition classified (st : state) : nat :=
  length (locations_monitored st) + length (locations_unmonitored st).

Inductive outcome : Type :=
| Returned (locations : list nat * list nat)
| Raised (e : exn)
| OutOfFuel.

Variable hs : nat -> list Q.   (* the k-th call of solve() yields [hs k] *)

Fixpoint loop (fuel : nat) (k : nat) (st : state) : outcome :=
  if classified st =? n
  then Returned (locations_monitored st, locations_unmonitored st)
  else match fuel with
       | 0 => OutOfFuel
       | S fuel' =>
           match outer_pass (hs k) st with
           | Ok st' => loop fuel' (S k) st'
           | Raise e => Raised e
           end
       end.

(** The states at the head of the [while], pass after pass. *)
Inductive reaches (st0 : state) : nat -> state -> Prop :=
| reaches_0 : reaches st0 0 st0
| reaches_S (k : nat) (st st' : state) :
    reaches st0 k st ->
    classified st <> n ->
    outer_pass (hs k) st = Ok st' ->
    reaches st0 (S k) st'.

(** The partition invariant of the data model. *)
Definition partition_ok (st : state) : Prop :=
  NoDup (locations_monitored st) /\
  NoDup (locations_unmonitored st) /\
  (forall i, i ∈ locations_monitored st -> i ∉ locations_unmonitored st) /\
  Forall (fun i => i < n) (locations_monitored st) /\
  Forall (fun i => i < n) (locations_unmonitored st).

(** An index that is in neither list. *)
Definition undecided (st : state) (u : nat) : Prop :=
  u < n /\ (u ∉ locations_monitored st) /\ (u ∉ locations_unmonitored st).

(** What the loop relies on from a solver output [h] at state [st]: one entry
    per location, frozen entries left on their side of the thresholds, and,
    when the stall test fires on a shared list, an index still to freeze. *)
Definition well_behaved (st : state) (h : list Q) : Prop :=
  length h = n /\
  (forall i, i ∈ locations_monitored st -> (1 - epsilon <= key h i)%Q) /\
  (forall i, i ∈ locations_unmonitored st -> (key h i <= epsilon)%Q) /\
  (stalled (update_sets (solve h st)) = Ok true ->
   sp_locations_monitored st = Shared ->
   exists u, undecided (update_sets (solve h st)) u).

(** What holds at the head of the [while] when the list of monitored
    locations is shared with the solver object. *)
Definition loop_inv (st : state) : Prop :=
  partition_ok st /\
  sp_locations_monitored st = Shared /\
  length (h_prev st) = n /\
  it st <= n_it.

(** A bound on the passes still to run. *)
Definition passes_left (st : state) : nat :=
  (n - classified st) * (n_it + 1) + (n_it - it st).

(** [initialize_problem] followed by the loop.  [keeps] tells whether the
    solver object keeps the caller's list of monitored locations. *)
Definition initial (keeps : bool) (h_prev0 weights : list Q)
    (S0 Sc0 : list nat) : state :=
  mkState S0 Sc0 (if keeps then Shared else Own S0) [] weights h_prev0 0.

Definition networkPlanning_iterative (fuel : nat) (keeps : bool)
    (h_prev0 weights : list Q) (S0 Sc0 : list nat) : outcome :=
  loop fuel 0 (initial keeps h_prev0 weights S0 Sc0).


End Planner.

(** ** Concrete runs *)

(** Two locations, [epsilon = 0.1], [n_it = 1], [h_prev] all zero and the
    weights [1/(h_prev + epsilon)], as the script sets them up. *)
Definition run2 (hs : nat -> list Q) (keeps : bool) (fuel : nat) : outcome :=
  networkPlanning_iterative 2 (1 # 10) 1 hs fuel keeps [0; 0]%Q [10; 10]%Q [] [].

Definition start2 (keeps : bool) : state :=
  initial keeps [0; 0]%Q [10; 10]%Q [] [].

(** A solver that holds frozen entries fixed and settles the last location
    on the second call. *)
Definition hs_settle (k : nat) : list Q :=
  match k with
  | 0 => [1; 1 # 2]%Q
  | _ => [1; 0]%Q
  end.

(** A solver whose second vector moves an entry across both thresholds. *)
Definition hs_crossing (k : nat) : list Q :=
  match k with
  | 0 => [0; 1 # 2]%Q
  | _ => [1; 1 # 2]%Q
  end.

(** A solver that stays on a plateau. *)
Definition hs_plateau (k : nat) : list Q := [1 # 2; 1 # 2]%Q.

(** A solver that freezes the first location and leaves the second on a
    plateau. *)
Definition hs_steady (k : nat) : list Q := [1; 1 # 2]%Q.

(** The states of the run on [hs_steady] with a shared list. *)
Definition steady1 : state :=
  Eval vm_compute in
    match outer_pass (1 # 10) 1 (hs_steady 0) (start2 true) with
    | Ok st => st
    | Raise _ => start2 true
    end.

Definition steady2 : state :=
  Eval vm_compute in
    match outer_pass (1 # 10) 1 (hs_steady 1) steady1 with
    | Ok st => st
    | Raise _ => steady1
    end.

(** A state in which both locations are already monitored, and one in which
    three indices are classified for two locations. *)
Definition both_monitored : state :=
  mkState [0; 1] [] Shared [1; 1]%Q [10; 10]%Q [1; 1]%Q 0.

Definition overshot : state :=
  mkState [0; 1] [1] Shared [1; 0]%Q [10; 10]%Q [1; 0]%Q 1.

End IRL1.

(** ** [recover_map] *)

Module RecoverMap.

Section Snapshot.

(** The entries of a snapshot: floats, with the value [nan] the script fills
    the vector with. *)
Variable A : Type.
Variable nan : A.

(** The [for] loop over the positions [pos], with the vector [X] and the read
    index [idx] it updates.  Reading [y[idx]] past the end of [y] raises. *)
Fixpoint fill (y : list A) (idx_nan : list nat) (pos : list nat)
    (X : list A) (idx : nat) : result (list A) :=
  match pos with
  | [] => Ok X
  | i :: pos' =>
      if decide (i ∈ idx_nan) then fill y idx_nan pos' X idx
      else match y !! idx with
           | Some v => fill y idx_nan pos' (<[i := v]> X) (S idx)
           | None => Raise IndexError
           end
  end.

(** [X_vect] after the loop. *)
Definition recover_vect (y : list A) (idx_nan : list nat) : result (list A) :=
  let N := length y + length idx_nan in
  fill y idx_nan (seq 0 N) (replicate N nan) 0.

(** [np.reshape(X, newshape=(n_rows, n_cols), order='F')], as the list of the
    rows: entry [(i, j)] is [X[i + j * n_rows]]. *)
Definition reshape_F (X : list A) (n_rows n_cols : nat)
    : result (list (list A)) :=
  if n_rows * n_cols =? length X
  then Ok (map (fun i => map (fun j => nth (i + j * n_rows) X nan)
                           (seq 0 n_cols))
               (seq 0 n_rows))
  else Raise ValueError.

Definition recover_map (y : list A) (idx_nan : list nat)
    (n_rows n_cols : nat) : result (list (list A)) :=
  X_vect ← recover_vect y idx_nan;
  reshape_F X_vect n_rows n_cols.

(** The number of positions before [p] that are not in [idx_nan]. *)
Definition rank (idx_nan : list nat) (p : nat) : nat :=
  length (filter (fun q => q ∉ idx_nan) (seq 0 p)).

End Snapshot.

End RecoverMap.

(** ** Two-dimensional arrays and the variance model *)

Module Linalg.

(** A two-dimensional array: its shape and its table of entries.  Only the
    entries inside the shape are ever read. *)
Record ndarray : Type := mkArray {
  nrows : nat;
  ncols : nat;
  entry : nat -> nat -> Q
}.

(** [sum f m] is [f 0 + ... + f (m - 1)]. *)
Fixpoint sum (f : nat -> Q) (m : nat) : Q :=
  match m with
  | 0 => 0%Q
  | S m' => (sum f m' + f m')%Q
  end.

(** [A @ B] *)
Definition matmul (A B : ndarray) : result ndarray :=
  if ncols A =? nrows B
  then Ok (mkArray (nrows A) (ncols B)
             (fun i j => sum (fun k => entry A i k * entry B k j)%Q (ncols A)))
  else Raise ValueError.

(** [A.T] *)
Definition transpose (A : ndarray) : ndarray :=
  mkArray (ncols A) (nrows A) (fun i j => entry A j i).

(** [np.identity(n)] *)
Definition delta (i j : nat) : Q := if i =? j then 1%Q else 0%Q.

Definition identity (n : nat) : ndarray := mkArray n n delta.

(** [A[idx]] for a list [idx] of row indices: the rows in the order of the
    list; an index past the last row raises. *)
Definition take_rows (A : ndarray) (idx : list nat) : result ndarray :=
  if forallb (fun i => i <? nrows A) idx
  then Ok (mkArray (length idx) (ncols A)
             (fun k j => entry A (nth k idx 0) j))
  else Raise IndexError.

(** [np.diag(A)] *)
Definition diag (A : ndarray) : list Q :=
  map (fun i => entry A i i) (seq 0 (Nat.min (nrows A) (ncols A))).

(** [v.max()]; the maximum of an empty vector raises. *)
Definition qmax (x y : Q) : Q := if Qle_bool x y then y else x.

Definition amax (v : list Q) : result Q :=
  match v with
  | [] => Raise ValueError
  | x :: t => Ok (foldl qmax x t)
  end.

(** [np.sort] of an index list. *)
Definition np_sort (l : list nat) : list nat := merge_sort le l.

(** Arrays that agree on their shape and, inside it, entry by entry. *)
Definition same_array (A B : ndarray) : Prop :=
  nrows A = nrows B /\ ncols A = ncols B /\
  forall i j, i < nrows A -> j < ncols A -> (entry A i j == entry B i j)%Q.

(** [B] is a two-sided inverse of the square array [G]. *)
Definition is_inverse (G B : ndarray) : Prop :=
  nrows G = ncols G /\ nrows B = nrows G /\ ncols B = nrows G /\
  (forall i j, i < nrows G -> j < nrows G ->
     (sum (fun k => entry G i k * entry B k j) (nrows G)
      == entry (identity (nrows G)) i j)%Q) /\
  (forall i j, i < nrows G -> j < nrows G ->
     (sum (fun k => entry B i k * entry G k j) (nrows G)
      == entry (identity (nrows G)) i j)%Q).

(** The columns of [Psi] are orthonormal: [Psi.T @ Psi] is the identity. *)
Definition orthonormal (Psi : ndarray) : Prop :=
  forall a b, a < ncols Psi -> b < ncols Psi ->
    (sum (fun i => entry Psi i a * entry Psi i b) (nrows Psi)
     == entry (identity (ncols Psi)) a b)%Q.

Section Variance.

(** [np.linalg.inv]: NumPy's, not the scripts'.  It returns an array or raises
    [LinAlgError]. *)
Variable inv : ndarray -> result ndarray.

(** The selection matrix of [signal_reconstruction_regression],
    [C = np.identity(Psi.shape[0])[locations_measured]]. *)
Definition selection_matrix (n : nat) (locations_measured : list nat)
    : result ndarray :=
  take_rows (identity n) locations_measured.

(** Modelled from the spec: [SensorPlacement.C_matrix] is not part of the two
    scripts.  Per the data model, [C(S)] has one row [e_i] per index of S; the
    rows come in increasing order because the script stores
    [np.sort(locations[0])] in [sensor_placement.locations] beforehand. *)
Definition C_matrix (n : nat) (locations : list nat) : result ndarray :=
  selection_matrix n locations.

(** [Psi.T @ C.T @ C @ Psi] *)
Definition gram (Psi C : ndarray) : result ndarray :=
  m1 ← matmul (transpose Psi) (transpose C);
  m2 ← matmul m1 C;
  matmul m2 Psi.

(** [np.diag(Psi @ np.linalg.inv(Psi.T @ C.T @ C @ Psi) @ Psi.T)] *)
Definition error_variance (Psi C : ndarray) : result (list Q) :=
  G ← gram Psi C;
  B ← inv G;
  m1 ← matmul Psi B;
  m2 ← matmul m1 (transpose Psi);
  Ok (diag m2).

(** [worst_coordinate_variance]: the same expression followed by [.max()]. *)
Definition worst_coordinate_variance (Psi C : ndarray) : result Q :=
  V ← error_variance Psi C;
  amax V.

(** The network-design script: the monitored locations are sorted, the
    solver object builds [C], the worst variance is computed. *)
Definition deployed_network_max_variance (Psi : ndarray)
    (locations_monitored : list nat) : result Q :=
  C ← C_matrix (nrows Psi) (np_sort locations_monitored);
  worst_coordinate_variance Psi C.

(** [fully_monitored_network_max_variance] in [IRNet_SST.py]:
    [diagonal(matmul(Psi, Psi.T)).max()]. *)
Definition fully_monitored_network_max_variance (Psi : ndarray) : result Q :=
  m ← matmul Psi (transpose Psi);
  amax (diag m).

(** The same name in [Dopt_placement.py]:
    [np.diag(Psi @ np.linalg.inv(Psi.T @ Psi) @ Psi.T).max()]. *)
Definition fully_monitored_network_max_variance_inv (Psi : ndarray)
    : result Q :=
  G ← matmul (transpose Psi) Psi;
  B ← inv G;
  m1 ← matmul Psi B;
  m2 ← matmul m1 (transpose Psi);
  amax (diag m2).



End Variance.

(** The vector [diag(Psi @ B @ Psi.T)] for a given array [B]. *)
Definition variance_with (B Psi : ndarray) : list Q :=
  map (fun i =>
         sum (fun b =>
                sum (fun a => entry Psi i a * entry B a b) (ncols Psi)
                * entry Psi i b) (ncols Psi))%Q
      (seq 0 (nrows Psi)).

(** An instance of [np.linalg.inv] in exact arithmetic, by cofactors. *)
Definition skip (k i : nat) : nat := if i <? k then i else S i.

Definition minor (M : nat -> nat -> Q) (r c : nat) : nat -> nat -> Q :=
  fun i j => M (skip r i) (skip c j).

Definition sign (k : nat) : Q := if Nat.even k then 1%Q else (-1)%Q.

Fixpoint det (m : nat) (M : nat -> nat -> Q) : Q :=
  match m with
  | 0 => 1%Q
  | S m' => sum (fun j => sign j * M 0%nat j * det m' (minor M 0%nat j))%Q m
  end.

Definition inv_exact (G : ndarray) : result ndarray :=
  if negb (nrows G =? ncols G) then Raise LinAlgError
  else if Qeq_bool (det (nrows G) (entry G)) 0 then Raise LinAlgError
  else Ok (mkArray (nrows G) (nrows G)
             (fun i j =>
                sign (i + j) * det (pred (nrows G)) (minor (entry G) j i)
                / det (nrows G) (entry G))%Q).

(** The table of an array, row by row. *)
Definition table (A : ndarray) : list (list Q) :=
  map (fun i => map (fun j => Qred (entry A i j)) (seq 0 (ncols A)))
      (seq 0 (nrows A)).

(** ** Concrete arrays *)

Definition of_table (r c : nat) (t : list (list Q)) : ndarray :=
  mkArray r c (fun i j => nth j (nth i t []) 0%Q).

Definition unwrap (r : result ndarray) : ndarray :=
  match r with
  | Ok A => A
  | Raise _ => mkArray 0 0 (fun _ _ => 0%Q)
  end.

(** Three locations, two basis vectors. *)
Definition Psi_demo : ndarray :=
  of_table 3 2 [[1; 0]; [0; 1]; [1; 2]]%Q.

Definition demo_C : ndarray := unwrap (C_matrix 3 (np_sort [2; 0])).
Definition demo_G : ndarray := unwrap (gram Psi_demo demo_C).
Definition demo_B : ndarray := unwrap (inv_exact demo_G).

(** Three locations, two orthonormal basis vectors. *)
Definition Psi_orth : ndarray :=
  of_table 3 2 [[3 # 5; 0]; [4 # 5; 0]; [0; 1]]%Q.


(** Two locations, one basis vector that vanishes at the second location. *)
Definition Psi_sing : ndarray := of_table 2 1 [[1]; [0]]%Q.

Definition sing_C : ndarray := unwrap (C_matrix 2 (np_sort [1])).
Definition sing_G : ndarray := unwrap (gram Psi_sing sing_C).

(** The monitored pair of [Psi_demo], listed in decreasing order. *)
Definition swap_C : ndarray := unwrap (selection_matrix 3 [2; 0]).
Definition swap_G : ndarray := unwrap (gram Psi_demo swap_C).

(** Every location of [Psi_orth] monitored. *)
Definition full_C : ndarray := unwrap (C_matrix 3 (np_sort [1; 0; 2])).
Definition full_G : ndarray := unwrap (gram Psi_orth full_C).
Definition full_B : ndarray := unwrap (inv_exact full_G).

End Linalg.

(** ** The scripts around the planner *)

Module Scripts.
Import Numpy Linalg.

(** [[i for i in np.arange(n) if i not in locations_monitored]], the list the
    scripts call [locations_unmonitored] once a placement is known. *)
Definition locations_unmonitored (n : nat) (locations_monitored : list nat)
    : list nat :=
  filter (fun i => i ∉ locations_monitored) (seq 0 n).

(** [signal_sparsity] of the sparsity study:
    [columns[np.argwhere(median <= rmse_threshold)[0][0]]].  The frame of the
    validation errors is summarised by its columns, in order, each with the
    median of its entries. *)
Definition signal_sparsity (rmse_threshold : Q) (medians : list (nat * Q))
    : result nat :=
  match argwhere (fun x => Qle_bool x rmse_threshold) (map snd medians) with
  | [] => Raise IndexError
  | i :: _ =>
      match map fst medians !! i with
      | Some s => Ok s
      | None => Raise IndexError
      end
  end.

(** [np.cumsum] and [np.sum] *)
Fixpoint cumsum_from (acc : Q) (v : list Q) : list Q :=
  match v with
  | [] => []
  | x :: t => (acc + x)%Q :: cumsum_from (acc + x)%Q t
  end.

Definition cumsum (v : list Q) : list Q :=
  match v with
  | [] => []
  | x :: t => x :: cumsum_from x t
  end.

Definition np_sum (v : list Q) : Q := foldr Qplus 0%Q v.

(** [cumulative_energy = np.cumsum(sing_vals)/np.sum(sing_vals)].  Dividing by
    zero gives [nan] or [inf] in NumPy and 0 in exact arithmetic; the facts
    about this quotient assume a positive sum. *)
Definition cumulative_energy (sing_vals : list Q) : list Q :=
  map (fun c => c / np_sum sing_vals)%Q (cumsum sing_vals).

(** [sing_vals_normalized = sing_vals / np.max(sing_vals)]; the maximum of an
    empty vector raises.  The facts about this quotient assume a positive
    maximum. *)
Definition sing_vals_normalized (sing_vals : list Q) : result (list Q) :=
  m ← amax sing_vals;
  Ok (map (fun x => x / m)%Q sing_vals).

(** [Psi_measured = C @ Psi] of [signal_reconstruction_regression]. *)
Definition Psi_measured (Psi : ndarray) (locations_measured : list nat)
    : result ndarray :=
  C ← selection_matrix (nrows Psi) locations_measured;
  matmul C Psi.

(** [v[:,None]]: a vector as a one-column array. *)
Definition column (v : list Q) : ndarray :=
  mkArray (length v) 1 (fun i _ => nth i v 0%Q).

(** One row of [error_var] in [Dopt_placement.py]:
    [np.diag(e[:,None] @ e[:,None].T)] for a row [e] of the errors. *)
Definition error_var_row (e : list Q) : result (list Q) :=
  m ← matmul (column e) (transpose (column e));
  Ok (diag m).

(** [A[:, :s]]: the first [s] columns, all of them when there are fewer. *)
Definition take_cols (A : ndarray) (s : nat) : ndarray :=
  mkArray (nrows A) (Nat.min s (ncols A)) (entry A).

(** NumPy broadcasting of two 2-D arrays under an entrywise operation: along
    each axis the lengths agree or one of them is 1, and an axis of length 1
    is read at its only position. *)
Definition broadcast_dim (a b : nat) : result nat :=
  if a =? b then Ok a
  else if a =? 1 then Ok b
  else if b =? 1 then Ok a
  else Raise ValueError.

Definition pick (d i : nat) : nat := if d =? 1 then 0 else i.

Definition broadcast2 (f : Q -> Q -> Q) (A B : ndarray) : result ndarray :=
  r ← broadcast_dim (nrows A) (nrows B);
  c ← broadcast_dim (ncols A) (ncols B);
  Ok (mkArray r c
        (fun i j => f (entry A (pick (nrows A) i) (pick (ncols A) j))
                      (entry B (pick (nrows B) i) (pick (ncols B) j)))).

Definition subtract : ndarray -> ndarray -> result ndarray := broadcast2 Qminus.
Definition add : ndarray -> ndarray -> result ndarray := broadcast2 Qplus.

(** The prediction of [signal_reconstruction_svd] for one sparsity [s]:
    [matmul(U[:,:s], matmul(U[:,:s].T, snapshots_matrix_val - mean_values))
     + mean_values]. *)
Definition snapshots_matrix_val_pred_svd (U mean_values snapshots_matrix_val
    : ndarray) (s : nat) : result ndarray :=
  centered ← subtract snapshots_matrix_val mean_values;
  coefficients ← matmul (transpose (take_cols U s)) centered;
  projected ← matmul (take_cols U s) coefficients;
  add projected mean_values.

(** [error = snapshots_matrix_val - snapshots_matrix_val_pred_svd] *)
Definition svd_error (U mean_values snapshots_matrix_val : ndarray) (s : nat)
    : result ndarray :=
  pred ← snapshots_matrix_val_pred_svd U mean_values snapshots_matrix_val s;
  subtract snapshots_matrix_val pred.

(** ** Concrete snapshots *)

(** The mean 1 at each of three locations, a snapshot whose centred form is
    5 times the first column of [Psi_orth] plus the second, and one that is
    not in the span of the first column. *)
Definition mean_ones : ndarray := column [1; 1; 1]%Q.
Definition X_span : ndarray := of_table 3 1 [[4]; [5]; [2]]%Q.
Definition A_span : ndarray := of_table 2 1 [[5]; [1]]%Q.
Definition P_first : ndarray :=
  unwrap (snapshots_matrix_val_pred_svd Psi_orth mean_ones X_span 1).

End Scripts.

(** * Facts about the NumPy operations *)

Section NumpyFacts.
Import Numpy.

Lemma argwhere_from_spec (p : Q -> bool) (h : list Q) (k i : nat) :
  i ∈ argwhere_from k p h <->
  k <= i /\ exists x, h !! (i - k) = Some x /\ p x = true.
Proof.
  revert k. induction h as [|y t IH]; intros k; simpl.
  - split.
    + intros Hin. inversion Hin.
    + intros (_ & x & Hx & _). discriminate.
  - assert (Htail : i ∈ argwhere_from (S k) p t <->
              k < i /\ exists x, (y :: t) !! (i - k) = Some x /\ p x = true).
    { rewrite IH. split.
      - intros (Hle & x & Hx & Hp). split; [lia|]. exists x. split; [|done].
        replace (i - k) with (S (i - S k)) by lia. done.
      - intros (Hlt & x & Hx & Hp). split; [lia|]. exists x. split; [|done].
        replace (i - k) with (S (i - S k)) in Hx by lia. done. }
    destruct (p y) eqn:Hy.
    + rewrite elem_of_cons, Htail. split.
      * intros [-> | (Hlt & Hex)].
        -- split; [lia|]. exists y. rewrite Nat.sub_diag. done.
        -- split; [lia | done].
      * intros (Hle & x & Hx & Hp).
        destruct (decide (i = k)) as [-> | Hne]; [by left | right].
        split; [lia|]. eauto.
    + rewrite Htail. split.
      * intros (Hlt & Hex). split; [lia | done].
      * intros (Hle & x & Hx & Hp).
        destruct (decide (i = k)) as [-> | Hne].
        -- rewrite Nat.sub_diag in Hx. simpl in Hx. congruence.
        -- split; [lia|]. eauto.
Qed.

Lemma argwhere_spec (p : Q -> bool) (h : list Q) (i : nat) :
  i ∈ argwhere p h <-> exists x, h !! i = Some x /\ p x = true.
Proof.
  unfold argwhere. rewrite argwhere_from_spec, Nat.sub_0_r.
  split; [intros [_ H]; exact H | intros H; split; [lia | exact H]].
Qed.

Lemma argwhere_from_NoDup (p : Q -> bool) (h : list Q) (k : nat) :
  NoDup (argwhere_from k p h).
Proof.
  revert k. induction h as [|y t IH]; intros k; simpl; [constructor|].
  destruct (p y); [|apply IH].
  constructor; [|apply IH].
  rewrite argwhere_from_spec. lia.
Qed.

Lemma argwhere_NoDup (p : Q -> bool) (h : list Q) : NoDup (argwhere p h).
Proof. apply argwhere_from_NoDup. Qed.

Lemma argwhere_lt (p : Q -> bool) (h : list Q) (i : nat) :
  i ∈ argwhere p h -> i < length h.
Proof.
  rewrite argwhere_spec. intros (x & Hx & _). by eapply lookup_lt_Some.
Qed.

Lemma insert_by_perm (h : list Q) (i : nat) (l : list nat) :
  insert_by h i l ≡ₚ i :: l.
Proof.
  induction l as [|j l IH]; simpl; [done|].
  destruct (Qle_bool (key h i) (key h j)); [done|].
  rewrite IH. apply perm_swap.
Qed.

Lemma insert_by_sorted (h : list Q) (i : nat) (l : list nat) :
  StronglySorted (before h) l ->
  Forall (lt i) l ->
  StronglySorted (before h) (insert_by h i l).
Proof.
  induction l as [|j l IH]; simpl; intros Hs Hlt.
  - repeat constructor.
  - apply StronglySorted_inv in Hs as [Hs Hj].
    apply Forall_cons in Hlt as [Hij Hlt].
    destruct (Qle_bool (key h i) (key h j)) eqn:Hle.
    + apply Qle_bool_iff in Hle.
      constructor; [by constructor|].
      assert (Hbij : before h i j).
      { apply Qle_lt_or_eq in Hle as [Hl | He]; [by left | by right]. }
      constructor; [exact Hbij|].
      rewrite Forall_forall in Hj, Hlt |- *. intros x Hx.
      specialize (Hj x Hx). specialize (Hlt x Hx).
      destruct Hj as [Hjx | [Hjx _]].
      * left. eapply Qle_lt_trans; eauto.
      * apply Qle_lt_or_eq in Hle as [Hl | He].
        -- left. by rewrite <- Hjx.
        -- right. split; [by rewrite He | lia].
    + assert (Hgt : (key h j < key h i)%Q).
      { apply Qnot_le_lt. intros Hc. apply Qle_bool_iff in Hc. congruence. }
      constructor; [by apply IH|].
      rewrite (insert_by_perm h i l). constructor; [by left | done].
Qed.

Lemma argsort_perm (h : list Q) : argsort h ≡ₚ seq 0 (length h).
Proof.
  unfold argsort. generalize 0 as k, (length h) as m. intros k m.
  revert k. induction m as [|m IH]; intros k; simpl; [done|].
  rewrite insert_by_perm. by rewrite IH.
Qed.

Lemma argsort_sorted (h : list Q) : StronglySorted (before h) (argsort h).
Proof.
  unfold argsort. generalize 0 as k, (length h) as m. intros k m.
  revert k.
  enough (forall k, StronglySorted (before h) (foldr (insert_by h) [] (seq k m))
                    /\ Forall (le k) (foldr (insert_by h) [] (seq k m)))
    as H by (intros k; apply H).
  induction m as [|m IH]; intros k; simpl.
  - split; constructor.
  - destruct (IH (S k)) as [Hs Hle]. split.
    + apply insert_by_sorted; [done|].
      eapply Forall_impl; [exact Hle|]. simpl. lia.
    + rewrite insert_by_perm. constructor; [lia|].
      eapply Forall_impl; [exact Hle|]. simpl. lia.
Qed.

Lemma elem_of_argsort (h : list Q) (i : nat) :
  i ∈ argsort h <-> i < length h.
Proof. rewrite argsort_perm, elem_of_seq. lia. Qed.

Lemma elem_of_rev {A : Type} (x : A) (l : list A) : x ∈ rev l <-> x ∈ l.
Proof. by rewrite <- Permutation_rev. Qed.

Lemma StronglySorted_rev {A : Type} (R : relation A) (l : list A) :
  StronglySorted R l -> StronglySorted (flip R) (rev l).
Proof.
  induction 1 as [|a l Hs IH Ha]; simpl; [constructor|].
  apply StronglySorted_app_2; [|done|repeat constructor].
  intros x1 x2 Hx1 Hx2. apply list_elem_of_singleton in Hx2 as ->.
  rewrite Forall_forall in Ha. apply Ha.
  by apply elem_of_rev.
Qed.

Lemma StronglySorted_filter {A : Type} (R : relation A) (P : A -> Prop)
    `{!forall x, Decision (P x)} (l : list A) :
  StronglySorted R l -> StronglySorted R (filter P l).
Proof.
  induction 1 as [|a l Hs IH Ha]; [constructor|].
  rewrite filter_cons. destruct (decide (P a)); [|done].
  constructor; [done|].
  rewrite Forall_forall in Ha |- *. intros x Hx.
  apply list_elem_of_filter in Hx as [_ Hx]. by apply Ha.
Qed.

Lemma below_half (e : Q) : (e < 1 # 2)%Q -> (e < 1 - e)%Q.
Proof. intros H. lra. Qed.

Lemma set_at_length (idx : list nat) (v : Q) (h h' : list Q) :
  set_at idx v h = Ok h' -> length h' = length h.
Proof.
  revert h. induction idx as [|i idx IH]; intros h; simpl.
  - by intros [= ->].
  - destruct (i <? length h); [|done].
    intros H. apply IH in H. by rewrite length_insert in H.
Qed.

Lemma set_at_Ok (idx : list nat) (v : Q) (h : list Q) :
  Forall (fun i => i < length h) idx -> exists h', set_at idx v h = Ok h'.
Proof.
  revert h. induction idx as [|i idx IH]; intros h Hall; simpl; [eauto|].
  apply Forall_cons in Hall as [Hi Hall].
  destruct (Nat.ltb_spec i (length h)) as [_|Hge]; [|lia].
  apply IH. by rewrite length_insert.
Qed.

Lemma set_at_in_range (idx : list nat) (v : Q) (h h' : list Q) :
  set_at idx v h = Ok h' -> Forall (fun i => i < length h) idx.
Proof.
  revert h. induction idx as [|i idx IH]; intros h; simpl; [constructor|].
  destruct (Nat.ltb_spec i (length h)) as [Hi|Hi]; [|done].
  intros H. constructor; [done|].
  apply IH in H. by rewrite length_insert in H.
Qed.

Lemma set_at_lookup (idx : list nat) (v : Q) (h h' : list Q) (i : nat) :
  set_at idx v h = Ok h' ->
  h' !! i = if decide (i ∈ idx) then Some v else h !! i.
Proof.
  revert h. induction idx as [|j idx IH]; intros h; cbn [set_at].
  - intros [= ->]. by rewrite decide_False by apply not_elem_of_nil.
  - destruct (Nat.ltb_spec j (length h)) as [Hj|]; [|done].
    intros H. rewrite (IH _ H).
    destruct (decide (i ∈ idx)) as [Hin | Hnin].
    + by rewrite decide_True by (by right).
    + destruct (decide (i = j)) as [-> | Hne].
      * rewrite decide_True by (by left). by apply list_lookup_insert_eq.
      * rewrite decide_False.
        -- by apply list_lookup_insert_ne.
        -- rewrite elem_of_cons. tauto.
Qed.

End NumpyFacts.

(** * Facts about [networkPlanning_iterative] *)

Section PlannerFacts.
Import Numpy IRL1.

Variable n : nat.
Variable epsilon : Q.
Variable n_it : nat.

Lemma fresh_spec (l cand : list nat) (i : nat) :
  i ∈ fresh l cand <-> (i ∉ l) /\ i ∈ cand.
Proof. unfold fresh. by rewrite list_elem_of_filter. Qed.

Lemma fresh_NoDup (l cand : list nat) : NoDup cand -> NoDup (fresh l cand).
Proof. apply NoDup_filter. Qed.

Lemma fresh_NoDup_app (l cand : list nat) :
  NoDup l -> NoDup cand -> NoDup (l ++ fresh l cand).
Proof.
  intros Hl Hc. apply NoDup_app. split; [done|]. split.
  - intros i Hi Hf. apply fresh_spec in Hf as [Hn _]. done.
  - by apply fresh_NoDup.
Qed.

Lemma above_spec (h : list Q) (i : nat) :
  i ∈ above epsilon h <-> exists x, h !! i = Some x /\ (1 - epsilon <= x)%Q.
Proof.
  unfold above. rewrite argwhere_spec.
  split; intros (x & Hx & Hp); exists x; split; try done;
    by apply Qle_bool_iff.
Qed.

Lemma below_spec (h : list Q) (i : nat) :
  i ∈ below epsilon h <-> exists x, h !! i = Some x /\ (x <= epsilon)%Q.
Proof.
  unfold below. rewrite argwhere_spec.
  split; intros (x & Hx & Hp); exists x; split; try done;
    by apply Qle_bool_iff.
Qed.

(** C3: the two lines under [# update sets] append to [locations_monitored]
    exactly the indices [i] with [h_i >= 1 - epsilon] that it does not hold
    yet, and to [locations_unmonitored] exactly the indices with
    [h_i <= epsilon] that it does not hold yet; each index is appended once,
    and a duplicate-free list stays duplicate-free. *)
Theorem update_sets_exact (h : list Q) (st : state) :
  let st1 := update_sets epsilon (solve h st) in
  (exists add,
      locations_monitored st1 = locations_monitored st ++ add /\
      NoDup add /\
      forall i, i ∈ add <->
                (exists x, h !! i = Some x /\ (1 - epsilon <= x)%Q) /\
                i ∉ locations_monitored st) /\
  (exists add,
      locations_unmonitored st1 = locations_unmonitored st ++ add /\
      NoDup add /\
      forall i, i ∈ add <->
                (exists x, h !! i = Some x /\ (x <= epsilon)%Q) /\
                i ∉ locations_unmonitored st) /\
  (NoDup (locations_monitored st) -> NoDup (locations_monitored st1)) /\
  (NoDup (locations_unmonitored st) -> NoDup (locations_unmonitored st1)).
Proof.
  simpl. repeat split.
  - exists (fresh (locations_monitored st) (above epsilon h)).
    split; [done|]. split; [apply fresh_NoDup, argwhere_NoDup|].
    intros i. rewrite fresh_spec, above_spec. tauto.
  - exists (fresh (locations_unmonitored st) (below epsilon h)).
    split; [done|]. split; [apply fresh_NoDup, argwhere_NoDup|].
    intros i. rewrite fresh_spec, below_spec. tauto.
  - intros Hnd. apply fresh_NoDup_app; [done | apply argwhere_NoDup].
  - intros Hnd. apply fresh_NoDup_app; [done | apply argwhere_NoDup].
Qed.

(** The forced index: first of the reversed [argsort] outside the list. *)
Lemma forced_index_spec (h : list Q) (l : list nat) (p : nat) (rest : list nat) :
  fresh l (rev (argsort h)) = p :: rest ->
  (p ∉ l) /\ p < length h /\
  forall j, j < length h -> j ∉ l -> j <> p -> before h j p.
Proof.
  intros Heq.
  assert (Hp : p ∈ fresh l (rev (argsort h))) by (rewrite Heq; by left).
  apply fresh_spec in Hp as [Hpl Hp].
  apply elem_of_rev, elem_of_argsort in Hp.
  split; [done|]. split; [done|].
  intros j Hj Hjl Hne.
  assert (Hs : StronglySorted (flip (before h)) (p :: rest)).
  { rewrite <- Heq. apply StronglySorted_filter, StronglySorted_rev,
      argsort_sorted. }
  apply StronglySorted_inv in Hs as [_ Hall].
  rewrite Forall_forall in Hall. apply Hall.
  assert (Hin : j ∈ p :: rest).
  { rewrite <- Heq. apply fresh_spec. split; [done|].
    by apply elem_of_rev, elem_of_argsort. }
  apply elem_of_cons in Hin as [-> | Hin]; done.
Qed.

Lemma forced_index_none (h : list Q) (l : list nat) :
  fresh l (rev (argsort h)) = [] <-> forall j, j < length h -> j ∈ l.
Proof.
  split.
  - intros Heq j Hj. destruct (decide (j ∈ l)) as [|Hn]; [done|].
    assert (Hin : j ∈ fresh l (rev (argsort h))).
    { apply fresh_spec. split; [done|]. by apply elem_of_rev, elem_of_argsort. }
    rewrite Heq in Hin. by apply elem_of_nil in Hin.
  - intros Hall. destruct (fresh l (rev (argsort h))) as [|p rest] eqn:Heq;
      [done|].
    apply forced_index_spec in Heq as (Hp & Hlt & _).
    exfalso. by apply Hp, Hall.
Qed.

(** ** The stall-breaking step *)

Lemma sp_extend_monitored (add : list nat) (st : state) :
  sp_monitored (sp_extend add st) = sp_monitored st ++ add.
Proof. unfold sp_monitored, sp_extend. by destruct (sp_locations_monitored st). Qed.

(** When the test under [# check convergence] holds, either every index is
    already in [sensor_placement.locations_monitored] and the step raises, or
    one index is appended to that list. *)
Lemma check_convergence_stalled (st : state) :
  stalled epsilon n_it st = Ok true ->
  ((forall j, j < length (h_value st) -> j ∈ sp_monitored st) /\
   check_convergence epsilon n_it st = Raise IndexError)
  \/
  (exists p st',
      check_convergence epsilon n_it st = Ok st' /\
      sp_monitored st' = sp_monitored st ++ [p] /\
      (p ∉ sp_monitored st) /\
      p < length (h_value st) /\
      (forall j, j < length (h_value st) -> j ∉ sp_monitored st -> j <> p ->
                 before (h_value st) j p) /\
      locations_monitored st' =
        match sp_locations_monitored st with
        | Shared => locations_monitored st ++ [p]
        | Own _ => locations_monitored st
        end /\
      locations_unmonitored st' = locations_unmonitored st /\
      it st' = 0 /\
      h_value st' = h_value st /\ w_value st' = w_value st /\
      h_prev st' = h_prev st /\
      sp_locations_monitored st' =
        match sp_locations_monitored st with
        | Shared => Shared
        | Own l => Own (l ++ [p])
        end).
Proof.
  intros Hst. unfold check_convergence. rewrite Hst. cbn.
  unfold force_freeze.
  destruct (fresh (sp_monitored st) (rev (argsort (h_value st))))
    as [|p rest] eqn:Heq.
  - left. split; [|done]. by apply forced_index_none.
  - right. exists p, (set_it 0 (sp_extend [p] st)).
    apply forced_index_spec in Heq as (Hp & Hlt & Hmax).
    split; [done|].
    split.
    { transitivity (sp_monitored (sp_extend [p] st)); [|apply sp_extend_monitored].
      unfold sp_monitored, set_it. simpl. done. }
    repeat (split; [done|]).
    unfold set_it, sp_extend.
    destruct (sp_locations_monitored st); simpl; done.
Qed.

Lemma check_convergence_not_stalled (st : state) :
  stalled epsilon n_it st = Ok false ->
  check_convergence epsilon n_it st = Ok st.
Proof. intros Hst. unfold check_convergence. by rewrite Hst. Qed.

Lemma check_convergence_cases (st st' : state) :
  check_convergence epsilon n_it st = Ok st' ->
  (stalled epsilon n_it st = Ok false /\ st' = st) \/
  (stalled epsilon n_it st = Ok true).
Proof.
  unfold check_convergence.
  destruct (stalled epsilon n_it st) as [[|]|e] eqn:Hst; cbn.
  - intros _. by right.
  - intros [= <-]. by left.
  - done.
Qed.

Lemma check_convergence_frame (st st' : state) :
  check_convergence epsilon n_it st = Ok st' ->
  h_value st' = h_value st /\ w_value st' = w_value st /\
  h_prev st' = h_prev st /\
  locations_unmonitored st' = locations_unmonitored st /\
  locations_monitored st `prefix_of` locations_monitored st'.
Proof.
  intros Hc. destruct (check_convergence_cases _ _ Hc) as [[_ ->] | Hst].
  - done.
  - destruct (check_convergence_stalled st Hst)
      as [[_ Hr] | (p & st2 & Hok & _ & _ & _ & _ & HS & HSc & _ & Hh & Hw & Hp & _)].
    + congruence.
    + rewrite Hok in Hc. injection Hc as <-.
      repeat (split; [done|]). rewrite HS.
      destruct (sp_locations_monitored st); [by apply prefix_app_r | done].
Qed.

(** ** The reweighting step *)

Lemma update_parameters_spec (st st' : state) :
  update_parameters epsilon st = Ok st' ->
  locations_monitored st' = locations_monitored st /\
  locations_unmonitored st' = locations_unmonitored st /\
  sp_locations_monitored st' = sp_locations_monitored st /\
  w_value st' = map (fun x => 1 / (x + epsilon))%Q (h_value st) /\
  h_prev st' = h_value st /\
  it st' = it st + 1 /\
  length (h_value st') = length (h_value st) /\
  forall i,
    h_value st' !! i =
      if decide (i ∈ locations_unmonitored st) then Some 0%Q
      else if decide (i ∈ locations_monitored st) then Some 1%Q
           else h_value st !! i.
Proof.
  unfold update_parameters.
  destruct (set_at (locations_monitored st) 1 (h_value st)) as [h1|] eqn:H1;
    cbn; [|done].
  destruct (set_at (locations_unmonitored st) 0 h1) as [h2|] eqn:H2;
    cbn; [|done].
  intros [= <-]. simpl. repeat (split; [done|]). split.
  - apply set_at_length in H1, H2. congruence.
  - intros i. rewrite (set_at_lookup _ _ _ _ i H2), (set_at_lookup _ _ _ _ i H1).
    done.
Qed.

(** ** One pass of the loop *)

Lemma outer_pass_steps (h : list Q) (st st' : state) :
  outer_pass epsilon n_it h st = Ok st' ->
  exists st1,
    check_convergence epsilon n_it (update_sets epsilon (solve h st)) = Ok st1 /\
    update_parameters epsilon st1 = Ok st'.
Proof.
  unfold outer_pass.
  destruct (check_convergence _ _ _) as [st1|e]; cbn; [|done].
  intros H. by exists st1.
Qed.

Lemma outer_pass_eq (h : list Q) (st st1 : state) :
  check_convergence epsilon n_it (update_sets epsilon (solve h st)) = Ok st1 ->
  outer_pass epsilon n_it h st = update_parameters epsilon st1.
Proof. unfold outer_pass. by intros ->. Qed.

(** C5, as the code has it: a pass that completes leaves in [w.value] the
    vector [1/(h_i + epsilon)] computed from the [h] of this pass's solve;
    [h.value] is then set to 1 at the monitored indices and, after that, to
    0 at the unmonitored ones.  So it is 0 at every index of Sc, 1 at every
    index of S that is not also in Sc, and unchanged elsewhere. *)
Theorem outer_pass_reweight (h : list Q) (st st' : state) :
  outer_pass epsilon n_it h st = Ok st' ->
  w_value st' = map (fun x => 1 / (x + epsilon))%Q h /\
  h_prev st' = h /\
  length (h_value st') = length h /\
  (forall i, i ∈ locations_unmonitored st' -> h_value st' !! i = Some 0%Q) /\
  (forall i, i ∈ locations_monitored st' -> i ∉ locations_unmonitored st' ->
             h_value st' !! i = Some 1%Q) /\
  (forall i, i ∉ locations_monitored st' -> i ∉ locations_unmonitored st' ->
             h_value st' !! i = h !! i).
Proof.
  intros Hp. apply outer_pass_steps in Hp as (st1 & Hc & Hu).
  apply check_convergence_frame in Hc as (Hh & _ & _ & _ & _).
  simpl in Hh.
  apply update_parameters_spec in Hu
    as (HS & HSc & _ & Hw & Hprev & _ & Hlen & Hlook).
  rewrite Hh in Hw, Hprev, Hlen, Hlook. rewrite HS, HSc.
  repeat (split; [done|]).
  split; [|split]; intros i.
  - intros Hi. rewrite Hlook. by rewrite decide_True.
  - intros Hi Hn. rewrite Hlook. rewrite decide_False by done.
    by rewrite decide_True.
  - intros Hi Hn. rewrite Hlook. by rewrite !decide_False.
Qed.

Lemma outer_pass_prefix (h : list Q) (st st' : state) :
  outer_pass epsilon n_it h st = Ok st' ->
  locations_monitored st `prefix_of` locations_monitored st' /\
  locations_unmonitored st `prefix_of` locations_unmonitored st'.
Proof.
  intros Hp. apply outer_pass_steps in Hp as (st1 & Hc & Hu).
  apply check_convergence_frame in Hc as (_ & _ & _ & HSc & HS).
  apply update_parameters_spec in Hu as (HS' & HSc' & _).
  rewrite HS', HSc', HSc. simpl in *. split.
  - etrans; [|exact HS]. by apply prefix_app_r.
  - by apply prefix_app_r.
Qed.

Lemma outer_pass_NoDup (h : list Q) (st st' : state) :
  outer_pass epsilon n_it h st = Ok st' ->
  (NoDup (locations_monitored st) -> NoDup (locations_monitored st')) /\
  (NoDup (locations_unmonitored st) -> NoDup (locations_unmonitored st')).
Proof.
  intros Hp. apply outer_pass_steps in Hp as (st1 & Hc & Hu).
  apply update_parameters_spec in Hu as (-> & -> & _).
  set (st0 := update_sets epsilon (solve h st)) in *.
  assert (H0 : (NoDup (locations_monitored st) -> NoDup (locations_monitored st0)) /\
               (NoDup (locations_unmonitored st) -> NoDup (locations_unmonitored st0))).
  { split; intros Hnd; apply fresh_NoDup_app; try done; apply argwhere_NoDup. }
  destruct H0 as [HS0 HSc0].
  destruct (check_convergence_cases _ _ Hc) as [[_ ->] | Hst]; [done|].
  destruct (check_convergence_stalled st0 Hst)
    as [[_ Hr] | (p & st2 & Hok & _ & Hpn & _ & _ & HS & HSc & _)];
    [congruence|].
  rewrite Hok in Hc. injection Hc as <-. rewrite HS, HSc. split; [|done].
  intros Hnd. specialize (HS0 Hnd).
  unfold sp_monitored in Hpn.
  destruct (sp_locations_monitored st0); [|done].
  apply NoDup_app. split; [done|]. split; [|apply NoDup_singleton].
  intros i Hi Hip. apply list_elem_of_singleton in Hip as ->. done.
Qed.

Lemma key_lookup (h : list Q) (i : nat) (x : Q) :
  h !! i = Some x -> key h i = x.
Proof. apply nth_lookup_Some. Qed.

Lemma lookup_key (h : list Q) (i : nat) :
  i < length h -> h !! i = Some (key h i).
Proof.
  intros Hi. unfold key.
  destruct (nth_lookup_or_length h i 0%Q) as [H | H]; [done | lia].
Qed.

Lemma update_sets_partition (h : list Q) (st : state) :
  (epsilon < 1 - epsilon)%Q ->
  length h = n ->
  (forall i, i ∈ locations_monitored st -> (1 - epsilon <= key h i)%Q) ->
  (forall i, i ∈ locations_unmonitored st -> (key h i <= epsilon)%Q) ->
  partition_ok n st ->
  partition_ok n (update_sets epsilon (solve h st)).
Proof.
  intros Heps Hlen HfS HfSc (HndS & HndSc & Hdisj & HrS & HrSc).
  unfold partition_ok. simpl.
  split; [apply fresh_NoDup_app; [done | apply argwhere_NoDup]|].
  split; [apply fresh_NoDup_app; [done | apply argwhere_NoDup]|].
  split; [|split].
  - intros i HiS HiSc.
    assert (Hhi : (1 - epsilon <= key h i)%Q).
    { apply elem_of_app in HiS as [HiS | HiS]; [by apply HfS|].
      apply fresh_spec in HiS as [_ HiS].
      apply above_spec in HiS as (x & Hx & Hle).
      by rewrite (key_lookup _ _ _ Hx). }
    assert (Hlo : (key h i <= epsilon)%Q).
    { apply elem_of_app in HiSc as [HiSc | HiSc]; [by apply HfSc|].
      apply fresh_spec in HiSc as [_ HiSc].
      apply below_spec in HiSc as (x & Hx & Hle).
      by rewrite (key_lookup _ _ _ Hx). }
    apply (Qlt_irrefl epsilon).
    eapply Qlt_le_trans; [exact Heps|]. by eapply Qle_trans.
  - apply Forall_app. split; [done|].
    apply Forall_forall. intros i Hi. apply fresh_spec in Hi as [_ Hi].
    apply argwhere_lt in Hi. lia.
  - apply Forall_app. split; [done|].
    apply Forall_forall. intros i Hi. apply fresh_spec in Hi as [_ Hi].
    apply argwhere_lt in Hi. lia.
Qed.

(** A pass keeps the partition invariant when the solver behaves. *)
Lemma outer_pass_partition (h : list Q) (st st' : state) :
  (epsilon < 1 - epsilon)%Q ->
  well_behaved n epsilon n_it st h ->
  partition_ok n st ->
  outer_pass epsilon n_it h st = Ok st' ->
  partition_ok n st'.
Proof.
  intros Heps (Hlen & HfS & HfSc & Hund) Hok Hp.
  apply outer_pass_steps in Hp as (st1 & Hc & Hu).
  apply update_parameters_spec in Hu as (HS' & HSc' & _).
  unfold partition_ok. rewrite HS', HSc'. clear HS' HSc' st'.
  pose proof (update_sets_partition h st Heps Hlen HfS HfSc Hok) as Hok0.
  set (st0 := update_sets epsilon (solve h st)) in *.
  destruct (check_convergence_cases _ _ Hc) as [[_ ->] | Hst]; [done|].
  destruct (check_convergence_stalled st0 Hst)
    as [[_ Hr] | (p & st2 & Hok2 & _ & Hpn & Hplt & Hmax & HS & HSc & _)];
    [congruence|].
  rewrite Hok2 in Hc. injection Hc as <-. rewrite HS, HSc.
  destruct (sp_locations_monitored st0) eqn:Hsp; [|done].
  unfold sp_monitored in Hpn, Hmax. rewrite Hsp in Hpn, Hmax.
  destruct (Hund Hst Hsp) as (u & Hu & HuS & HuSc).
  destruct Hok0 as (HndS & HndSc & Hdisj & HrS & HrSc).
  assert (Hh0 : h_value st0 = h) by done.
  rewrite Hh0 in Hplt, Hmax.
  assert (HpSc : p ∉ locations_unmonitored st0).
  { intros HpSc.
    assert (Hkp : (key h p <= epsilon)%Q).
    { simpl in HpSc. apply elem_of_app in HpSc as [HpSc | HpSc]; [by apply HfSc|].
      apply fresh_spec in HpSc as [_ HpSc].
      apply below_spec in HpSc as (x & Hx & Hle).
      by rewrite (key_lookup _ _ _ Hx). }
    assert (Hup : u <> p) by (intros ->; done).
    assert (Hku : (key h u <= key h p)%Q).
    { destruct (Hmax u ltac:(lia) HuS Hup) as [Hl | [He _]].
      - by apply Qlt_le_weak.
      - rewrite He. apply Qle_refl. }
    apply HuSc. simpl. apply elem_of_app.
    destruct (decide (u ∈ locations_unmonitored st)) as [|Hnu]; [by left|].
    right. apply fresh_spec. split; [done|].
    apply below_spec. exists (key h u). split; [apply lookup_key; lia|].
    by eapply Qle_trans. }
  split; [|split; [done|split; [|split; [|done]]]].
  - apply NoDup_app. split; [done|]. split; [|apply NoDup_singleton].
    intros i Hi Hip. apply list_elem_of_singleton in Hip as ->. done.
  - intros i Hi. apply elem_of_app in Hi as [Hi | Hi]; [by apply Hdisj|].
    apply list_elem_of_singleton in Hi as ->. done.
  - apply Forall_app. split; [done|]. apply Forall_singleton. lia.
Qed.

(** ** Progress and termination *)

Lemma classified_le (st : state) : partition_ok n st -> classified st <= n.
Proof.
  intros (HndS & HndSc & Hdisj & HrS & HrSc). unfold classified.
  rewrite <- length_app, <- (length_seq n 0).
  apply submseteq_length, NoDup_submseteq.
  - apply NoDup_app. done.
  - intros i Hi. apply elem_of_seq.
    rewrite Forall_forall in HrS, HrSc.
    apply elem_of_app in Hi as [Hi | Hi]; [apply HrS in Hi | apply HrSc in Hi];
      lia.
Qed.

Lemma sub_same_length (a b : list Q) :
  length a = length b -> sub a b = Ok (zip_sub a b).
Proof. intros H. unfold sub. by rewrite H, Nat.eqb_refl. Qed.

Lemma stalled_total (st : state) :
  length (h_value st) = length (h_prev st) ->
  exists b, stalled epsilon n_it st = Ok b.
Proof. intros H. unfold stalled. rewrite (sub_same_length _ _ H). cbn. eauto. Qed.

Lemma stalled_false_it (st : state) :
  stalled epsilon n_it st = Ok false -> it st <> n_it.
Proof.
  unfold stalled. destruct (sub _ _) as [d|e]; cbn; [|done].
  intros [= H]. apply orb_false_iff in H as [_ H].
  by apply Nat.eqb_neq in H.
Qed.

Lemma update_parameters_Ok (st : state) :
  Forall (fun i => i < length (h_value st)) (locations_monitored st) ->
  Forall (fun i => i < length (h_value st)) (locations_unmonitored st) ->
  exists st', update_parameters epsilon st = Ok st'.
Proof.
  intros HS HSc. unfold update_parameters.
  destruct (set_at_Ok _ 1%Q _ HS) as [h1 H1]. rewrite H1. cbn.
  assert (HSc1 : Forall (fun i => i < length h1) (locations_unmonitored st)).
  { by rewrite (set_at_length _ _ _ _ H1). }
  destruct (set_at_Ok _ 0%Q _ HSc1) as [h2 H2]. rewrite H2. cbn. eauto.
Qed.

Lemma update_sets_classified (h : list Q) (st : state) :
  classified st <= classified (update_sets epsilon (solve h st)).
Proof. unfold classified. simpl. rewrite !length_app. lia. Qed.

(** What a completed pass does to the counters when the list is shared. *)
Lemma outer_pass_counters (h : list Q) (st st' : state) :
  sp_locations_monitored st = Shared ->
  outer_pass epsilon n_it h st = Ok st' ->
  sp_locations_monitored st' = Shared /\
  h_prev st' = h /\
  ((it st <> n_it /\ it st' = it st + 1 /\ classified st <= classified st') \/
   (it st' = 1 /\ classified st < classified st')).
Proof.
  intros Hsp Hp. apply outer_pass_steps in Hp as (st1 & Hc & Hu).
  apply update_parameters_spec in Hu as (HS & HSc & Hsp' & _ & Hprev & Hit & _).
  pose proof (update_sets_classified h st) as Hcl.
  set (st0 := update_sets epsilon (solve h st)) in *.
  assert (Hsp0 : sp_locations_monitored st0 = Shared) by done.
  unfold classified in *. rewrite HS, HSc, Hsp', Hprev, Hit.
  destruct (check_convergence_cases _ _ Hc) as [[Hst ->] | Hst].
  - split; [done|]. split; [done|]. left.
    apply stalled_false_it in Hst. done.
  - destruct (check_convergence_stalled st0 Hst)
      as [[_ Hr] | (p & st2 & Hok2 & _ & _ & _ & _ & HS2 & HSc2 & Hit2 & Hh2 & _ & _ & Hsp2)];
      [congruence|].
    rewrite Hok2 in Hc. injection Hc as <-.
    rewrite HS2, HSc2, Hit2, Hh2, Hsp2, Hsp0. rewrite length_app. simpl.
    split; [done|]. split; [done|]. right. split; [done|].
    subst st0. simpl in Hcl |- *. lia.
Qed.

Lemma outer_pass_progress (h : list Q) (st : state) :
  (epsilon < 1 - epsilon)%Q ->
  1 <= n_it ->
  loop_inv n n_it st ->
  classified st <> n ->
  well_behaved n epsilon n_it st h ->
  exists st',
    outer_pass epsilon n_it h st = Ok st' /\
    loop_inv n n_it st' /\
    passes_left n n_it st' < passes_left n n_it st.
Proof.
  intros Heps Hnit (Hok & Hsp & Hprev & Hit) Hcl Hwb.
  pose proof Hwb as (Hlen & HfS & HfSc & Hund).
  pose proof (update_sets_partition h st Heps Hlen HfS HfSc Hok) as Hok0.
  assert (Hex : exists st', outer_pass epsilon n_it h st = Ok st').
  { set (st0 := update_sets epsilon (solve h st)) in *.
    assert (Hsp0 : sp_locations_monitored st0 = Shared) by done.
    destruct (stalled_total st0) as [b Hst].
    { simpl. congruence. }
    destruct Hok0 as (_ & _ & _ & HrS & HrSc).
    destruct b.
    - destruct (check_convergence_stalled st0 Hst)
        as [[Hall _] | (p & st2 & Hok2 & _ & _ & Hplt & _ & HS2 & HSc2 & _ & Hh2 & _)].
      + destruct (Hund Hst Hsp) as (u & Hu & HuS & _).
        exfalso. apply HuS. specialize (Hall u).
        unfold sp_monitored in Hall. rewrite Hsp0 in Hall.
        apply Hall. simpl. lia.
      + rewrite (outer_pass_eq _ _ _ Hok2). apply update_parameters_Ok.
        * rewrite HS2, Hh2, Hsp0. simpl. rewrite Hlen.
          apply Forall_app. split; [done|]. apply Forall_singleton.
          simpl in Hplt. lia.
        * rewrite HSc2, Hh2. simpl. by rewrite Hlen.
    - rewrite (outer_pass_eq _ _ _ (check_convergence_not_stalled _ Hst)).
      apply update_parameters_Ok; simpl; by rewrite Hlen. }
  destruct Hex as [st' Hp]. exists st'. split; [done|].
  pose proof (outer_pass_partition h st st' Heps Hwb Hok Hp) as Hok'.
  destruct (outer_pass_counters h st st' Hsp Hp) as (Hsp' & Hprev' & Hcnt).
  pose proof (classified_le st Hok) as Hle.
  pose proof (classified_le st' Hok') as Hle'.
  split.
  - split; [done|]. split; [done|]. split; [congruence|].
    destruct Hcnt as [(Hne & -> & _) | (-> & _)]; lia.
  - unfold passes_left.
    destruct Hcnt as [(Hne & -> & Hc) | (-> & Hc)].
    + assert ((n - classified st') * (n_it + 1) <= (n - classified st) * (n_it + 1))
        by (apply Nat.mul_le_mono_r; lia).
      lia.
    + assert ((n - classified st') * (n_it + 1) + (n_it + 1)
              <= (n - classified st) * (n_it + 1)).
      { replace ((n - classified st') * (n_it + 1) + (n_it + 1))
          with ((n - classified st' + 1) * (n_it + 1)) by lia.
        apply Nat.mul_le_mono_r. lia. }
      lia.
Qed.

Variable hs : nat -> list Q.

Lemma loop_returns (st0 : state) (fuel k : nat) (st : state) :
  (epsilon < 1 - epsilon)%Q ->
  1 <= n_it ->
  (forall j st1, reaches n epsilon n_it hs st0 j st1 -> classified st1 <> n ->
                 well_behaved n epsilon n_it st1 (hs j)) ->
  reaches n epsilon n_it hs st0 k st ->
  loop_inv n n_it st ->
  passes_left n n_it st <= fuel ->
  exists j st',
    reaches n epsilon n_it hs st0 j st' /\
    loop_inv n n_it st' /\
    classified st' = n /\
    loop n epsilon n_it hs fuel k st =
      Returned (locations_monitored st', locations_unmonitored st').
Proof.
  intros Heps Hnit Hwb. revert k st.
  induction fuel as [|fuel IH]; intros k st Hr Hinv Hfuel.
  - destruct (decide (classified st = n)) as [Heq | Hne].
    + exists k, st. repeat (split; [done|]).
      simpl. apply Nat.eqb_eq in Heq. by rewrite Heq.
    + destruct (outer_pass_progress (hs k) st Heps Hnit Hinv Hne (Hwb k st Hr Hne))
        as (st' & _ & _ & Hlt). lia.
  - destruct (decide (classified st = n)) as [Heq | Hne].
    + exists k, st. repeat (split; [done|]).
      simpl. apply Nat.eqb_eq in Heq. by rewrite Heq.
    + destruct (outer_pass_progress (hs k) st Heps Hnit Hinv Hne (Hwb k st Hr Hne))
        as (st' & Hp & Hinv' & Hlt).
      destruct (IH (S k) st') as (j & st2 & Hr2 & Hinv2 & Hcl2 & Hloop).
      * by eapply reaches_S.
      * done.
      * lia.
      * exists j, st2. repeat (split; [done|]).
        simpl. apply Nat.eqb_neq in Hne. by rewrite Hne, Hp.
Qed.

Lemma reaches_prefix (st0 : state) (k : nat) (st : state) :
  reaches n epsilon n_it hs st0 k st ->
  locations_monitored st0 `prefix_of` locations_monitored st /\
  locations_unmonitored st0 `prefix_of` locations_unmonitored st.
Proof.
  induction 1 as [|k st st' Hr [IHS IHSc] Hne Hp]; [done|].
  apply outer_pass_prefix in Hp as [HS HSc].
  split; by etrans.
Qed.

Lemma reaches_NoDup (st0 : state) (k : nat) (st : state) :
  reaches n epsilon n_it hs st0 k st ->
  (NoDup (locations_monitored st0) -> NoDup (locations_monitored st)) /\
  (NoDup (locations_unmonitored st0) -> NoDup (locations_unmonitored st)).
Proof.
  induction 1 as [|k st st' Hr [IHS IHSc] Hne Hp]; [done|].
  apply outer_pass_NoDup in Hp as [HS HSc]. split; auto.
Qed.

Lemma reaches_partition (st0 : state) (k : nat) (st : state) :
  (epsilon < 1 - epsilon)%Q ->
  (forall j st1, reaches n epsilon n_it hs st0 j st1 -> classified st1 <> n ->
                 well_behaved n epsilon n_it st1 (hs j)) ->
  partition_ok n st0 ->
  reaches n epsilon n_it hs st0 k st ->
  partition_ok n st.
Proof.
  intros Heps Hwb Hok0. induction 1 as [|k st st' Hr IH Hne Hp]; [done|].
  eapply outer_pass_partition; eauto.
Qed.

Lemma loop_fuel_mono (fuel fuel' k : nat) (st : state) :
  fuel <= fuel' ->
  loop n epsilon n_it hs fuel k st <> OutOfFuel ->
  loop n epsilon n_it hs fuel' k st = loop n epsilon n_it hs fuel k st.
Proof.
  revert fuel' k st. induction fuel as [|fuel IH]; intros fuel' k st Hle Hne.
  - destruct fuel'; simpl in *; destruct (classified st =? n); done.
  - destruct fuel' as [|fuel']; [lia|]. simpl in *.
    destruct (classified st =? n); [done|].
    destruct (outer_pass epsilon n_it (hs k) st); [|done].
    apply IH; [lia | done].
Qed.

(** A run that raises at some fuel returns at no fuel. *)
Lemma loop_raised_never_returns (fuel0 : nat) (e : exn) (k : nat) (st : state) :
  loop n epsilon n_it hs fuel0 k st = Raised e ->
  forall fuel r, loop n epsilon n_it hs fuel k st <> Returned r.
Proof.
  intros Hr fuel r Hret.
  destruct (Nat.le_ge_cases fuel fuel0) as [Hle | Hle].
  - rewrite <- (loop_fuel_mono fuel fuel0 k st Hle) in Hret by congruence.
    congruence.
  - rewrite <- (loop_fuel_mono fuel0 fuel k st Hle) in Hr by congruence.
    congruence.
Qed.

(** ** The claims about the loop *)

(** C1, as the code has it: the loop returns, with
    [|locations_monitored| + |locations_unmonitored| = n], within
    [(n - |S0| - |Sc0|) * (n_it + 1) + n_it] passes, provided that
    [epsilon < 1/2] and [n_it >= 1], that the solver object keeps the caller's
    list (so that a forced freeze lands in S), that the lists start as a
    duplicate-free disjoint pair of indices below [n] and [h_prev] has [n]
    entries, and that every solver output is [well_behaved]: [n] entries,
    frozen entries left on their side of the thresholds, and an undecided
    index left whenever the stall test fires.  The returned lists are then a
    partition that extends the initial lists.  Progress is not per pass: a
    pass freezes an index only on a threshold crossing or when the stall test
    holds, which the counter forces at least every [n_it + 1] passes. *)
Theorem networkPlanning_iterative_terminates
    (h_prev0 weights : list Q) (S0 Sc0 : list nat) :
  (epsilon < 1 # 2)%Q ->
  1 <= n_it ->
  length h_prev0 = n ->
  partition_ok n (initial true h_prev0 weights S0 Sc0) ->
  (forall k st,
      reaches n epsilon n_it hs (initial true h_prev0 weights S0 Sc0) k st ->
      classified st <> n ->
      well_behaved n epsilon n_it st (hs k)) ->
  exists mon unmon,
    (forall fuel,
        (n - length S0 - length Sc0) * (n_it + 1) + n_it <= fuel ->
        networkPlanning_iterative n epsilon n_it hs fuel true
          h_prev0 weights S0 Sc0 = Returned (mon, unmon)) /\
    length mon + length unmon = n /\
    NoDup mon /\ NoDup unmon /\ (forall i, i ∈ mon -> i ∉ unmon) /\
    S0 `prefix_of` mon /\ Sc0 `prefix_of` unmon.
Proof.
  intros Heps Hnit Hlen Hok Hwb.
  set (st0 := initial true h_prev0 weights S0 Sc0) in *.
  pose proof (below_half _ Heps) as Heps'.
  assert (Hinv : loop_inv n n_it st0).
  { split; [done|]. split; [done|]. split; [done|]. simpl. lia. }
  assert (Hbound : passes_left n n_it st0 =
                   (n - length S0 - length Sc0) * (n_it + 1) + n_it).
  { unfold passes_left, classified. simpl.
    replace (n - (length S0 + length Sc0)) with (n - length S0 - length Sc0)
      by lia.
    lia. }
  destruct (loop_returns st0 (passes_left n n_it st0) 0 st0 Heps' Hnit Hwb)
    as (j & st' & Hr & (Hok' & _) & Hcl & Hloop); [constructor | done | done |].
  exists (locations_monitored st'), (locations_unmonitored st').
  destruct (reaches_prefix _ _ _ Hr) as [HpS HpSc].
  destruct Hok' as (HndS & HndSc & Hdisj & _).
  split; [|done].
  intros fuel Hfuel. unfold networkPlanning_iterative. fold st0.
  rewrite <- Hloop. apply loop_fuel_mono; [lia|]. by rewrite Hloop.
Qed.


(** C4, as the code has it: along a run both lists only grow at the end (the
    initial lists are prefixes of the later ones, so no index is removed or
    moved) and a duplicate-free list stays duplicate-free.  The two lists stay
    disjoint when [epsilon < 1/2], they start as a partition, and every
    solver output is [well_behaved]; the code itself never checks one list
    against the other. *)
Theorem partition_monotone (st0 : state) (k : nat) (st : state) :
  reaches n epsilon n_it hs st0 k st ->
  locations_monitored st0 `prefix_of` locations_monitored st /\
  locations_unmonitored st0 `prefix_of` locations_unmonitored st /\
  (NoDup (locations_monitored st0) -> NoDup (locations_monitored st)) /\
  (NoDup (locations_unmonitored st0) -> NoDup (locations_unmonitored st)) /\
  ((epsilon < 1 # 2)%Q ->
   partition_ok n st0 ->
   (forall j st1, reaches n epsilon n_it hs st0 j st1 -> classified st1 <> n ->
                  well_behaved n epsilon n_it st1 (hs j)) ->
   forall i, i ∈ locations_monitored st -> i ∉ locations_unmonitored st).
Proof.
  intros Hr.
  destruct (reaches_prefix _ _ _ Hr) as [HpS HpSc].
  destruct (reaches_NoDup _ _ _ Hr) as [HnS HnSc].
  repeat (split; [done|]).
  intros Heps Hok Hwb.
  pose proof (below_half _ Heps) as Heps'.
  by destruct (reaches_partition st0 k st Heps' Hwb Hok Hr) as (_ & _ & Hd & _).
Qed.

End PlannerFacts.

(** * Concrete runs of the loop *)

Section ConcreteRuns.
Import Numpy IRL1.

Ltac in_list :=
  simpl; repeat first [apply list_elem_of_here | apply list_elem_of_further].

Lemma unit_interval_settle (k : nat) :
  length (hs_settle k) = 2 /\ Forall (fun x => 0 <= x <= 1)%Q (hs_settle k).
Proof. destruct k; (split; [done|]); repeat constructor; lra. Qed.

Lemma unit_interval_plateau (k : nat) :
  length (hs_plateau k) = 2 /\ Forall (fun x => 0 <= x <= 1)%Q (hs_plateau k).
Proof. split; [done|]. repeat constructor; lra. Qed.

(** C1 fails as stated.  With two locations, [epsilon = 0.1], [n_it = 1] and
    solver outputs in [[0,1]^2], the run on [hs_settle] with a shared list
    never returns: the second pass classifies the last location and, the stall
    test holding, force-freezes it into S as well, so the length test of the
    [while] is missed and the third pass raises [IndexError].  With a list of
    its own the solver object fills it on [hs_plateau] until the forced freeze
    raises.  And the first pass on [hs_plateau] freezes no index at all. *)
Lemma termination_counterexample :
  (forall k, length (hs_settle k) = 2 /\
             Forall (fun x => 0 <= x <= 1)%Q (hs_settle k)) /\
  (forall fuel r, run2 hs_settle true fuel <> Returned r) /\
  (forall k, length (hs_plateau k) = 2 /\
             Forall (fun x => 0 <= x <= 1)%Q (hs_plateau k)) /\
  (forall fuel r, run2 hs_plateau false fuel <> Returned r) /\
  (exists st1, outer_pass (1 # 10) 1 (hs_plateau 0) (start2 true) = Ok st1 /\
               classified st1 = 0).
Proof.
  split; [exact unit_interval_settle|]. split.
  { apply (loop_raised_never_returns 2 (1 # 10) 1 hs_settle 5 IndexError).
    vm_compute. reflexivity. }
  split; [exact unit_interval_plateau|]. split.
  { apply (loop_raised_never_returns 2 (1 # 10) 1 hs_plateau 5 IndexError).
    vm_compute. reflexivity. }
  eexists. split; [vm_compute; reflexivity | reflexivity].
Qed.


(** C4 fails as stated: the lists need not stay disjoint.  After two passes
    on [hs_settle] with a shared list, index 1 is in both lists (frozen as
    unmonitored by its entry, then force-frozen as monitored).  After two
    passes on [hs_crossing], whose entry 0 moves from below [epsilon] to above
    [1 - epsilon], index 0 is in both lists, whoever holds the monitored
    list. *)
Lemma disjointness_counterexample :
  (exists st, reaches 2 (1 # 10) 1 hs_settle (start2 true) 2 st /\
              1 ∈ locations_monitored st /\ 1 ∈ locations_unmonitored st) /\
  (forall keeps,
      exists st, reaches 2 (1 # 10) 1 hs_crossing (start2 keeps) 2 st /\
                 0 ∈ locations_monitored st /\ 0 ∈ locations_unmonitored st).
Proof.
  split.
  - eexists. split.
    + eapply reaches_S;
        [eapply reaches_S; [apply reaches_0 | vm_compute; lia | vm_compute; reflexivity]
        | vm_compute; lia | vm_compute; reflexivity].
    + split; in_list.
  - intros [|]; (eexists; split;
      [ eapply reaches_S;
        [eapply reaches_S; [apply reaches_0 | vm_compute; lia | vm_compute; reflexivity]
        | vm_compute; lia | vm_compute; reflexivity]
      | split; in_list ]).
Qed.

(** C5 fails as stated: [h] need not be 1 on the whole monitored list.  The
    second pass on [hs_settle] with a shared list ends with index 1 monitored
    and [h_1 = 0]; the second pass on [hs_crossing] ends with index 0
    monitored and [h_0 = 0].  In both the index is also in the unmonitored
    list, and the assignment of 0 comes last. *)
Lemma reweight_counterexample :
  (exists st1 st2,
      outer_pass (1 # 10) 1 (hs_settle 0) (start2 true) = Ok st1 /\
      outer_pass (1 # 10) 1 (hs_settle 1) st1 = Ok st2 /\
      1 ∈ locations_monitored st2 /\ h_value st2 !! 1 = Some 0%Q) /\
  (forall keeps,
      exists st1 st2,
        outer_pass (1 # 10) 1 (hs_crossing 0) (start2 keeps) = Ok st1 /\
        outer_pass (1 # 10) 1 (hs_crossing 1) st1 = Ok st2 /\
        0 ∈ locations_monitored st2 /\ h_value st2 !! 0 = Some 0%Q).
Proof.
  split.
  - eexists. eexists. split; [vm_compute; reflexivity|].
    split; [vm_compute; reflexivity|].
    split; [in_list | reflexivity].
  - intros [|]; (eexists; eexists; split; [vm_compute; reflexivity|];
      split; [vm_compute; reflexivity|];
      split; [in_list | reflexivity]).
Qed.

(** ** The run on [hs_steady] *)

Lemma steady1_pass (k : nat) :
  outer_pass (1 # 10) 1 (hs_steady k) (start2 true) = Ok steady1.
Proof. vm_compute. reflexivity. Qed.

Lemma steady2_pass (k : nat) :
  outer_pass (1 # 10) 1 (hs_steady k) steady1 = Ok steady2.
Proof. vm_compute. reflexivity. Qed.

Lemma reaches_steady2 :
  reaches 2 (1 # 10) 1 hs_steady (start2 true) 2 steady2.
Proof.
  eapply reaches_S;
    [eapply reaches_S; [apply reaches_0 | vm_compute; lia | apply steady1_pass]
    | vm_compute; lia | apply steady2_pass].
Qed.

Lemma reaches_steady (k : nat) (st : state) :
  reaches 2 (1 # 10) 1 hs_steady (start2 true) k st ->
  st = start2 true \/ st = steady1 \/ classified st = 2.
Proof.
  induction 1 as [|k st st' Hr IH Hne Hp]; [by left|].
  destruct IH as [-> | [-> | Hcl]]; [| |done].
  - rewrite steady1_pass in Hp. injection Hp as <-. right. by left.
  - rewrite steady2_pass in Hp. injection Hp as <-. right. by right.
Qed.

Lemma well_behaved_steady (k : nat) (st : state) :
  reaches 2 (1 # 10) 1 hs_steady (start2 true) k st ->
  classified st <> 2 ->
  well_behaved 2 (1 # 10) 1 st (hs_steady k).
Proof.
  intros Hr Hne.
  destruct (reaches_steady k st Hr) as [-> | [-> | Hcl]]; [| |done].
  - split; [done|].
    split; [intros i Hi; by apply elem_of_nil in Hi|].
    split; [intros i Hi; by apply elem_of_nil in Hi|].
    intros Hst. vm_compute in Hst. discriminate.
  - split; [done|].
    split.
    { intros i Hi. apply list_elem_of_singleton in Hi as ->.
      vm_compute. discriminate. }
    split; [intros i Hi; by apply elem_of_nil in Hi|].
    intros _ _. exists 1. split; [lia|]. split.
    + intros Hi. vm_compute in Hi. apply list_elem_of_singleton in Hi. lia.
    + intros Hi. vm_compute in Hi. by apply elem_of_nil in Hi.
Qed.

Lemma start2_partition : partition_ok 2 (start2 true).
Proof.
  split; [constructor|]. split; [constructor|].
  split; [intros i Hi; by apply elem_of_nil in Hi|].
  split; constructor.
Qed.

(** C1, witness: the run on [hs_steady] meets the provisos. *)
Lemma networkPlanning_iterative_terminates_witness :
  (forall k st,
      reaches 2 (1 # 10) 1 hs_steady (start2 true) k st ->
      classified st <> 2 ->
      well_behaved 2 (1 # 10) 1 st (hs_steady k)) /\
  exists mon unmon,
    (forall fuel,
        (2 - 0 - 0) * (1 + 1) + 1 <= fuel ->
        networkPlanning_iterative 2 (1 # 10) 1 hs_steady fuel true
          [0; 0]%Q [10; 10]%Q [] [] = Returned (mon, unmon)) /\
    length mon + length unmon = 2 /\
    NoDup mon /\ NoDup unmon /\ (forall i, i ∈ mon -> i ∉ unmon) /\
    [] `prefix_of` mon /\ [] `prefix_of` unmon.
Proof.
  split; [exact well_behaved_steady|].
  apply (networkPlanning_iterative_terminates 2 (1 # 10) 1 hs_steady
           [0; 0]%Q [10; 10]%Q [] []).
  - reflexivity.
  - lia.
  - reflexivity.
  - exact start2_partition.
  - exact well_behaved_steady.
Defined.


(** C4, witness: the two passes on [hs_steady]. *)
Lemma partition_monotone_witness :
  reaches 2 (1 # 10) 1 hs_steady (start2 true) 2 steady2 /\
  locations_monitored (start2 true) `prefix_of` locations_monitored steady2 /\
  locations_unmonitored (start2 true) `prefix_of` locations_unmonitored steady2 /\
  NoDup (locations_monitored steady2) /\
  NoDup (locations_unmonitored steady2) /\
  forall i, i ∈ locations_monitored steady2 ->
            i ∉ locations_unmonitored steady2.
Proof.
  split; [exact reaches_steady2|].
  destruct (partition_monotone 2 (1 # 10) 1 hs_steady (start2 true) 2 steady2
              reaches_steady2) as (HS & HSc & HnS & HnSc & Hdisj).
  split; [exact HS|]. split; [exact HSc|].
  split; [apply HnS; constructor|]. split; [apply HnSc; constructor|].
  apply Hdisj.
  - reflexivity.
  - exact start2_partition.
  - exact well_behaved_steady.
Defined.

(** C5, witness: the first pass on [hs_steady]. *)
Lemma outer_pass_reweight_witness :
  outer_pass (1 # 10) 1 (hs_steady 0) (start2 true) = Ok steady1 /\
  w_value steady1 = map (fun x => 1 / (x + (1 # 10)))%Q (hs_steady 0) /\
  h_prev steady1 = hs_steady 0 /\
  length (h_value steady1) = length (hs_steady 0) /\
  (forall i, i ∈ locations_unmonitored steady1 ->
             h_value steady1 !! i = Some 0%Q) /\
  (forall i, i ∈ locations_monitored steady1 ->
             i ∉ locations_unmonitored steady1 ->
             h_value steady1 !! i = Some 1%Q) /\
  (forall i, i ∉ locations_monitored steady1 ->
             i ∉ locations_unmonitored steady1 ->
             h_value steady1 !! i = hs_steady 0 !! i).
Proof.
  split; [apply steady1_pass|].
  apply (outer_pass_reweight (1 # 10) 1 (hs_steady 0) (start2 true) steady1).
  apply steady1_pass.
Defined.

End ConcreteRuns.

(** * Facts about [recover_map] *)

Section RecoverMapFacts.
Import RecoverMap.

Context {A : Type} (nan : A).

Lemma rank_S (idx_nan : list nat) (p : nat) :
  rank idx_nan (S p) =
    if decide (p ∈ idx_nan) then rank idx_nan p else S (rank idx_nan p).
Proof.
  unfold rank. rewrite seq_S, filter_app, length_app. simpl.
  rewrite filter_cons, filter_nil.
  destruct (decide (p ∉ idx_nan)) as [Hn | Hn].
  - rewrite decide_False by done. simpl. lia.
  - rewrite decide_True by (by apply dec_stable). simpl. lia.
Qed.

Lemma rank_mono (idx_nan : list nat) (p q : nat) :
  p <= q -> rank idx_nan p <= rank idx_nan q.
Proof.
  induction 1 as [|q Hle IH]; [done|].
  rewrite rank_S. destruct (decide (q ∈ idx_nan)); lia.
Qed.

(** The positions outside a duplicate-free, in-range [idx_nan] are as many as
    the other positions. *)
Lemma rank_total (idx_nan : list nat) (N : nat) :
  NoDup idx_nan ->
  Forall (fun i => i < N) idx_nan ->
  rank idx_nan N + length idx_nan = N.
Proof.
  intros Hnd Hr. unfold rank.
  pose proof (filter_app_complement (fun q => q ∈ idx_nan) (seq 0 N)) as Hperm.
  apply Permutation_length in Hperm.
  rewrite length_app, length_seq in Hperm.
  assert (Hin : filter (fun q => q ∈ idx_nan) (seq 0 N) ≡ₚ idx_nan).
  { apply NoDup_Permutation; [apply NoDup_filter, NoDup_seq | done |].
    intros x. rewrite list_elem_of_filter, elem_of_seq.
    rewrite Forall_forall in Hr. split; [tauto|].
    intros Hx. split; [done|]. specialize (Hr x Hx). lia. }
  apply Permutation_length in Hin. lia.
Qed.

Lemma rank_lt (idx_nan : list nat) (N p : nat) :
  p < N -> p ∉ idx_nan -> rank idx_nan p < rank idx_nan N.
Proof.
  intros Hp Hn.
  assert (H : rank idx_nan (S p) <= rank idx_nan N) by (apply rank_mono; lia).
  rewrite rank_S, decide_False in H by done. lia.
Qed.

Lemma fill_seq (y : list A) (idx_nan : list nat) (N m k : nat) (X : list A) :
  k + m = N ->
  length X = N ->
  (forall p, p < N -> p ∉ idx_nan -> rank idx_nan p < length y) ->
  exists X',
    fill A y idx_nan (seq k m) X (rank idx_nan k) = Ok X' /\
    length X' = N /\
    forall p,
      X' !! p =
        if decide (k <= p < N /\ p ∉ idx_nan) then y !! rank idx_nan p
        else X !! p.
Proof.
  revert k X. induction m as [|m IH]; intros k X Hk HX Hy.
  - exists X. split; [done|]. split; [done|].
    intros p. rewrite decide_False by lia. done.
  - simpl. destruct (decide (k ∈ idx_nan)) as [Hin | Hnin].
    + destruct (IH (S k) X) as (X' & Hf & HX' & Hl); [lia | done | done |].
      rewrite rank_S, decide_True in Hf by done.
      exists X'. split; [done|]. split; [done|].
      intros p. rewrite Hl.
      destruct (decide (p = k)) as [-> | Hne].
      * rewrite !decide_False; [done | tauto | lia].
      * destruct (decide (S k <= p < N /\ p ∉ idx_nan)) as [Hd | Hd].
        -- rewrite decide_True; [done|]. split; [lia | tauto].
        -- rewrite decide_False; [done|]. intros [H1 H2]. apply Hd.
           split; [lia | done].
    + assert (Hlt : rank idx_nan k < length y) by (apply Hy; [lia | done]).
      destruct (lookup_lt_is_Some_2 y _ Hlt) as [v Hv]. rewrite Hv.
      destruct (IH (S k) (<[k := v]> X)) as (X' & Hf & HX' & Hl);
        [lia | by rewrite length_insert | done |].
      rewrite rank_S, decide_False in Hf by done.
      exists X'. split; [done|]. split; [done|].
      intros p. rewrite Hl.
      destruct (decide (p = k)) as [-> | Hne].
      * rewrite decide_False by lia. rewrite decide_True by (split; [lia|done]).
        rewrite list_lookup_insert_eq by lia. done.
      * rewrite list_lookup_insert_ne by done.
        destruct (decide (S k <= p < N /\ p ∉ idx_nan)) as [Hd | Hd].
        -- rewrite decide_True; [done|]. split; [lia | tauto].
        -- rewrite decide_False; [done|]. intros [H1 H2]. apply Hd.
           split; [lia | done].
Qed.

Lemma rank_filter_seq (idx_nan : list nat) (N : nat) :
  rank idx_nan <$> filter (fun p => p ∉ idx_nan) (seq 0 N)
  = seq 0 (rank idx_nan N).
Proof.
  induction N as [|N IH]; [done|].
  rewrite seq_S, filter_app, fmap_app, IH, rank_S. simpl.
  rewrite filter_cons, filter_nil.
  destruct (decide (N ∉ idx_nan)) as [Hn | Hn].
  - rewrite decide_False by done. by rewrite seq_S.
  - rewrite decide_True by (by apply dec_stable). simpl. by rewrite app_nil_r.
Qed.

Lemma lookups_seq (y : list A) :
  (fun j => y !! j) <$> seq 0 (length y) = Some <$> y.
Proof.
  induction y as [|v y IH]; [done|].
  simpl. f_equal. rewrite <- fmap_S_seq, <- list_fmap_compose. exact IH.
Qed.

Lemma lookup_nth (X : list A) (i : nat) :
  i < length X -> X !! i = Some (nth i X nan).
Proof.
  intros Hi. destruct (nth_lookup_or_length X i nan) as [H | H]; [done | lia].
Qed.

Lemma reshape_F_spec (X : list A) (n_rows n_cols : nat) :
  n_rows * n_cols = length X ->
  exists X_mat,
    reshape_F A nan X n_rows n_cols = Ok X_mat /\
    length X_mat = n_rows /\
    Forall (fun row => length row = n_cols) X_mat /\
    forall i j, i < n_rows -> j < n_cols ->
                X_mat !! i ≫= (fun row => row !! j) = X !! (i + j * n_rows).
Proof.
  intros Hsize. unfold reshape_F.
  apply Nat.eqb_eq in Hsize as Hb. rewrite Hb.
  eexists. split; [done|].
  split; [by rewrite length_map, length_seq|].
  split.
  - apply Forall_fmap, Forall_forall. intros i _. simpl.
    by rewrite length_map, length_seq.
  - intros i j Hi Hj.
    rewrite list_lookup_fmap, lookup_seq_lt by done. simpl.
    rewrite list_lookup_fmap, lookup_seq_lt by done. simpl.
    symmetry. apply lookup_nth. nia.
Qed.

(** C10: for measurements [y] and a list [idx_nan] of distinct positions of
    the flat vector, with [n_rows * n_cols = len(y) + len(idx_nan)],
    [recover_map] returns a matrix of [n_rows] rows of [n_cols] entries whose
    entry [(i, j)] is entry [i + j * n_rows] of the flat vector (column-major
    order).  The flat vector has [len(y) + len(idx_nan)] entries; it holds
    [nan] at the positions listed in [idx_nan] (and only there when [y] holds
    no [nan]), and the entries of [y], in their order, at the other positions
    taken in increasing order. *)
Theorem recover_map_spec (y : list A) (idx_nan : list nat)
    (n_rows n_cols : nat) :
  NoDup idx_nan ->
  Forall (fun i => i < length y + length idx_nan) idx_nan ->
  n_rows * n_cols = length y + length idx_nan ->
  exists X_vect X_mat,
    recover_vect A nan y idx_nan = Ok X_vect /\
    recover_map A nan y idx_nan n_rows n_cols = Ok X_mat /\
    length X_vect = length y + length idx_nan /\
    (forall p, p ∈ idx_nan -> X_vect !! p = Some nan) /\
    (forall p, p < length y + length idx_nan -> p ∉ idx_nan ->
               X_vect !! p = y !! rank idx_nan p) /\
    (fun p => X_vect !! p)
      <$> filter (fun p => p ∉ idx_nan) (seq 0 (length y + length idx_nan))
      = Some <$> y /\
    (nan ∉ y -> forall p, X_vect !! p = Some nan <-> p ∈ idx_nan) /\
    length X_mat = n_rows /\
    Forall (fun row => length row = n_cols) X_mat /\
    forall i j, i < n_rows -> j < n_cols ->
                X_mat !! i ≫= (fun row => row !! j)
                = X_vect !! (i + j * n_rows).
Proof.
  intros Hnd Hr Hsize.
  set (N := length y + length idx_nan) in *.
  pose proof (rank_total idx_nan N Hnd Hr) as Htot.
  assert (Hrank : rank idx_nan N = length y) by (unfold N in *; lia).
  assert (Hy : forall p, p < N -> p ∉ idx_nan -> rank idx_nan p < length y).
  { intros p Hp Hn. rewrite <- Hrank. by apply rank_lt. }
  destruct (fill_seq y idx_nan N N 0 (replicate N nan))
    as (X & Hf & HX & Hl); [lia | apply length_replicate | done |].
  change (rank idx_nan 0) with 0 in Hf.
  assert (Hvect : recover_vect A nan y idx_nan = Ok X) by exact Hf.
  assert (Hnan : forall p, p ∈ idx_nan -> X !! p = Some nan).
  { intros p Hp. rewrite Hl, decide_False by tauto.
    apply lookup_replicate_2. rewrite Forall_forall in Hr. by apply Hr. }
  assert (Hval : forall p, p < N -> p ∉ idx_nan -> X !! p = y !! rank idx_nan p).
  { intros p Hp Hn. rewrite Hl, decide_True; [done|]. split; [lia | done]. }
  destruct (reshape_F_spec X n_rows n_cols) as (M & HM & HlenM & Hrows & Hent);
    [congruence|].
  exists X, M.
  split; [exact Hvect|].
  split; [unfold recover_map; by rewrite Hvect|].
  split; [done|]. split; [done|]. split; [done|].
  split.
  { transitivity ((fun p => y !! rank idx_nan p)
                    <$> filter (fun p => p ∉ idx_nan) (seq 0 N)).
    - apply Forall_fmap_ext, Forall_forall. intros p Hp.
      apply list_elem_of_filter in Hp as [Hn Hp]. apply elem_of_seq in Hp.
      apply Hval; [lia | done].
    - change (fun p => y !! rank idx_nan p)
        with ((fun j => y !! j) ∘ rank idx_nan).
      rewrite list_fmap_compose, rank_filter_seq, Hrank. apply lookups_seq. }
  split; [|done].
  intros Hny p. split; [|apply Hnan].
  intros Hp. destruct (decide (p ∈ idx_nan)) as [|Hn]; [done|].
  exfalso. apply Hny.
  assert (HpN : p < N) by (rewrite <- HX; by eapply lookup_lt_Some).
  rewrite (Hval p HpN Hn) in Hp. by eapply list_elem_of_lookup_2.
Qed.

End RecoverMapFacts.

(** * Facts about the variance model *)

Section LinalgFacts.
Import Linalg.

Local Open Scope Q_scope.

Lemma sum_ext (f g : nat -> Q) (m : nat) :
  (forall k, (k < m)%nat -> f k == g k) -> sum f m == sum g m.
Proof.
  induction m as [|m IH]; intros H; simpl; [reflexivity|].
  rewrite IH, (H m) by (intros; try apply H; lia). reflexivity.
Qed.

Lemma sum_scale_l (x : Q) (f : nat -> Q) (m : nat) :
  x * sum f m == sum (fun k => x * f k) m.
Proof.
  induction m as [|m IH]; simpl; [ring|]. rewrite <- IH. ring.
Qed.

Lemma sum_scale_r (x : Q) (f : nat -> Q) (m : nat) :
  sum f m * x == sum (fun k => f k * x) m.
Proof.
  induction m as [|m IH]; simpl; [ring|]. rewrite <- IH. ring.
Qed.

Lemma sum_plus (f g : nat -> Q) (m : nat) :
  sum (fun k => f k + g k) m == sum f m + sum g m.
Proof.
  induction m as [|m IH]; simpl; [ring|]. rewrite IH. ring.
Qed.

Lemma sum_zero (f : nat -> Q) (m : nat) :
  (forall k, (k < m)%nat -> f k == 0) -> sum f m == 0.
Proof.
  induction m as [|m IH]; intros H; simpl; [reflexivity|].
  rewrite IH, (H m) by (intros; try apply H; lia). ring.
Qed.

Lemma sum_swap (f : nat -> nat -> Q) (m p : nat) :
  sum (fun k => sum (fun l => f k l) p) m
  == sum (fun l => sum (fun k => f k l) m) p.
Proof.
  induction m as [|m IH]; simpl.
  - symmetry. apply sum_zero. intros; reflexivity.
  - rewrite IH, <- sum_plus. reflexivity.
Qed.

Lemma sum_delta_l (f : nat -> Q) (i m : nat) :
  (i < m)%nat -> sum (fun k => delta i k * f k) m == f i.
Proof.
  induction m as [|m IH]; intros Hi; [lia|]. simpl.
  destruct (decide (i = m)) as [-> | Hne].
  - rewrite sum_zero.
    + unfold delta. rewrite Nat.eqb_refl. ring.
    + intros k Hk. unfold delta.
      destruct (Nat.eqb_spec m k); [lia | ring].
  - rewrite IH by lia. unfold delta.
    destruct (Nat.eqb_spec i m); [lia | ring].
Qed.

Lemma sum_delta_r (f : nat -> Q) (i m : nat) :
  (i < m)%nat -> sum (fun k => f k * delta k i) m == f i.
Proof.
  intros Hi. rewrite <- (sum_delta_l f i m Hi).
  apply sum_ext. intros k _. unfold delta.
  rewrite (Nat.eqb_sym k i). ring.
Qed.

Lemma matmul_Ok (A B : ndarray) :
  ncols A = nrows B ->
  exists M, matmul A B = Ok M /\ nrows M = nrows A /\ ncols M = ncols B /\
            entry M = fun i j => sum (fun k => entry A i k * entry B k j) (ncols A).
Proof.
  intros H. unfold matmul. apply Nat.eqb_eq in H. rewrite H.
  eexists. split; [reflexivity|]. done.
Qed.

Lemma matmul_inv (A B M : ndarray) :
  matmul A B = Ok M ->
  ncols A = nrows B /\ nrows M = nrows A /\ ncols M = ncols B /\
  entry M = fun i j => sum (fun k => entry A i k * entry B k j) (ncols A).
Proof.
  unfold matmul. destruct (Nat.eqb_spec (ncols A) (nrows B)); [|done].
  by intros [= <-].
Qed.

Lemma take_rows_Ok (A : ndarray) (idx : list nat) :
  Forall (fun i => (i < nrows A)%nat) idx ->
  take_rows A idx
  = Ok (mkArray (length idx) (ncols A) (fun k j => entry A (nth k idx 0%nat) j)).
Proof.
  intros H. unfold take_rows.
  assert (Hb : forallb (fun i => i <? nrows A) idx = true).
  { apply forallb_forall. intros i Hi. apply Nat.ltb_lt.
    rewrite Forall_forall in H. by apply H, list_elem_of_In. }
  by rewrite Hb.
Qed.

Lemma take_rows_Raise (A : ndarray) (idx : list nat) (i : nat) :
  i ∈ idx -> (nrows A <= i)%nat -> take_rows A idx = Raise IndexError.
Proof.
  intros Hi Hge. unfold take_rows.
  destruct (forallb (fun i => i <? nrows A) idx) eqn:Hb; [|done].
  rewrite forallb_forall in Hb. apply list_elem_of_In in Hi.
  apply Hb, Nat.ltb_lt in Hi. lia.
Qed.

Lemma np_sort_perm (l l' : list nat) : l ≡ₚ l' -> np_sort l = np_sort l'.
Proof.
  intros Hp. unfold np_sort.
  apply (StronglySorted_unique le).
  - apply StronglySorted_merge_sort; apply _.
  - apply StronglySorted_merge_sort; apply _.
  - by rewrite !merge_sort_Permutation.
Qed.

Lemma np_sort_sorted (l : list nat) : StronglySorted le (np_sort l).
Proof. apply StronglySorted_merge_sort; apply _. Qed.

Lemma np_sort_elem (l : list nat) (i : nat) : i ∈ np_sort l <-> i ∈ l.
Proof. unfold np_sort. by rewrite merge_sort_Permutation. Qed.

Lemma qmax_cases (x y : Q) :
  (qmax x y = y /\ x <= y) \/ (qmax x y = x /\ y <= x).
Proof.
  unfold qmax. destruct (Qle_bool x y) eqn:H.
  - left. split; [done|]. by apply Qle_bool_iff.
  - right. split; [done|]. apply Qlt_le_weak, Qnot_le_lt.
    intros Hc. apply Qle_bool_iff in Hc. congruence.
Qed.

Lemma foldl_qmax_spec (t : list Q) (x : Q) :
  (foldl qmax x t = x \/ foldl qmax x t ∈ t) /\
  x <= foldl qmax x t /\
  Forall (fun y => y <= foldl qmax x t) t.
Proof.
  revert x. induction t as [|y t IH]; intros x; simpl.
  - split; [by left|]. split; [apply Qle_refl | constructor].
  - destruct (IH (qmax x y)) as (Hin & Hle & Hall).
    destruct (qmax_cases x y) as [[Hq Hxy] | [Hq Hyx]]; rewrite Hq in *.
    + split; [right; destruct Hin as [-> | Hin]; [by left | by right]|].
      split; [by eapply Qle_trans|]. by constructor.
    + split; [destruct Hin as [-> | Hin]; [by left | right; by right]|].
      split; [done|]. constructor; [by eapply Qle_trans | done].
Qed.

(** [v.max()] of a non-empty vector is one of its entries and bounds them
    all. *)
Lemma amax_spec (v : list Q) :
  v <> [] ->
  exists w, amax v = Ok w /\ w ∈ v /\ Forall (fun y => y <= w) v.
Proof.
  destruct v as [|x t]; [done|]. intros _. simpl.
  destruct (foldl_qmax_spec t x) as (Hin & Hle & Hall).
  eexists. split; [reflexivity|]. split.
  - destruct Hin as [-> | Hin]; [by left | by right].
  - by constructor.
Qed.

Lemma qmax_proper (x x' y y' : Q) :
  x == x' -> y == y' -> qmax x y == qmax x' y'.
Proof.
  intros Hx Hy. unfold qmax. rewrite (Qleb_comp _ _ Hx _ _ Hy).
  destruct (Qle_bool x' y'); done.
Qed.

Lemma foldl_qmax_proper (t t' : list Q) (x x' : Q) :
  x == x' -> Forall2 Qeq t t' -> foldl qmax x t == foldl qmax x' t'.
Proof.
  intros Hx Ht. revert x x' Hx.
  induction Ht as [|y y' t t' Hy Ht IH]; intros x x' Hx; simpl; [done|].
  apply IH. by apply qmax_proper.
Qed.

Lemma amax_proper (v v' : list Q) (w : Q) :
  Forall2 Qeq v v' -> amax v = Ok w -> exists w', amax v' = Ok w' /\ w == w'.
Proof.
  intros Hv. destruct Hv as [|x x' t t' Hx Ht]; simpl; [done|].
  intros [= <-]. eexists. split; [reflexivity|].
  by apply foldl_qmax_proper.
Qed.

Lemma map_Qeq (f g : nat -> Q) (l : list nat) :
  (forall i, i ∈ l -> f i == g i) -> Forall2 Qeq (map f l) (map g l).
Proof.
  intros H. apply Forall2_fmap, Forall_Forall2_diag, Forall_forall. exact H.
Qed.

Lemma inverse_unique (G B B' : ndarray) :
  is_inverse G B -> is_inverse G B' ->
  forall i j, (i < nrows G)%nat -> (j < nrows G)%nat ->
              entry B' i j == entry B i j.
Proof.
  intros (_ & _ & _ & HGB & _) (_ & _ & _ & _ & HB'G) i j Hi Hj.
  set (r := nrows G) in *.
  transitivity (sum (fun k => entry B' i k * delta k j) r).
  { symmetry. exact (sum_delta_r (fun k => entry B' i k) j r Hj). }
  transitivity (sum (fun k => sum (fun l => entry B' i k * entry G k l * entry B l j) r) r).
  { apply sum_ext. intros k Hk. rewrite <- (HGB k j Hk Hj).
    rewrite sum_scale_l. apply sum_ext. intros l _. ring. }
  rewrite sum_swap.
  transitivity (sum (fun l => delta i l * entry B l j) r).
  { apply sum_ext. intros l Hl. simpl in HB'G. rewrite <- (HB'G i l Hi Hl).
    rewrite sum_scale_r. apply sum_ext. intros k _. ring. }
  exact (sum_delta_l (fun l => entry B l j) i r Hi).
Qed.

Lemma variance_with_proper (B B' Psi : ndarray) :
  (forall a b, (a < ncols Psi)%nat -> (b < ncols Psi)%nat ->
               entry B a b == entry B' a b) ->
  Forall2 Qeq (variance_with B Psi) (variance_with B' Psi).
Proof.
  intros H. unfold variance_with. apply map_Qeq. intros i _.
  apply sum_ext. intros b Hb.
  rewrite (sum_ext (fun a => entry Psi i a * entry B a b)
                   (fun a => entry Psi i a * entry B' a b)); [reflexivity|].
  intros a Ha. by rewrite (H a b Ha Hb).
Qed.

Lemma gram_shape (Psi C G : ndarray) :
  gram Psi C = Ok G ->
  nrows Psi = ncols C /\ nrows G = ncols Psi /\ ncols G = ncols Psi.
Proof.
  unfold gram.
  destruct (matmul (transpose Psi) (transpose C)) as [m1|] eqn:H1; cbn; [|done].
  destruct (matmul m1 C) as [m2|] eqn:H2; cbn; [|done].
  intros H3.
  apply matmul_inv in H1 as (Hs1 & Hr1 & _).
  apply matmul_inv in H2 as (_ & Hr2 & _).
  apply matmul_inv in H3 as (_ & Hr3 & Hc3 & _).
  simpl in *. split; [done|]. split; congruence.
Qed.

(** With an inverse [B] of the Gram matrix at hand, the expression of the
    scripts is the vector of the quadratic forms [psi_i B psi_i^T]. *)
Lemma error_variance_with (inv : ndarray -> result ndarray)
    (Psi C G B : ndarray) :
  gram Psi C = Ok G ->
  inv G = Ok B ->
  is_inverse G B ->
  error_variance inv Psi C = Ok (variance_with B Psi).
Proof.
  intros HG HB (_ & HrB & HcB & _).
  destruct (gram_shape _ _ _ HG) as (_ & HrG & _).
  unfold error_variance. rewrite HG. cbn. rewrite HB. cbn.
  destruct (matmul_Ok Psi B) as (m1 & -> & Hr1 & Hc1 & He1); [congruence|].
  cbn.
  destruct (matmul_Ok m1 (transpose Psi)) as (m2 & -> & Hr2 & Hc2 & He2);
    [simpl; congruence|].
  cbn. f_equal. unfold diag, variance_with.
  rewrite Hr2, Hc2, Hr1. simpl. rewrite Nat.min_id.
  rewrite He2, He1, Hc1, HcB, HrG. reflexivity.
Qed.

Lemma variance_with_length (B Psi : ndarray) :
  length (variance_with B Psi) = nrows Psi.
Proof. unfold variance_with. by rewrite length_map, length_seq. Qed.





(** C8, as the code has it: [np.identity(n)[locations_measured]] has one row
    per entry of the list, in the order of the list, row [k] being the unit
    vector of the [k]-th listed index; an index that is not below [n] raises.
    The rows are in increasing order once the list is sorted, and after
    [np.sort] two orderings of the same indices give the same matrix. *)
Theorem selection_matrix_rows (n : nat) (l : list nat) :
  Forall (fun i => (i < n)%nat) l ->
  exists C,
    selection_matrix n l = Ok C /\
    nrows C = length l /\
    ncols C = n /\
    (forall k i j, l !! k = Some i -> entry C k j = delta i j) /\
    StronglySorted le (np_sort l) /\
    forall l', l ≡ₚ l' ->
               selection_matrix n (np_sort l') = selection_matrix n (np_sort l).
Proof.
  intros Hl. unfold selection_matrix.
  rewrite take_rows_Ok by done.
  eexists. split; [reflexivity|]. simpl.
  split; [done|]. split; [done|].
  split.
  { intros k i j Hk. by rewrite (nth_lookup_Some _ _ _ _ Hk). }
  split; [apply np_sort_sorted|].
  intros l' Hp. by rewrite (np_sort_perm l l' Hp).
Qed.

End LinalgFacts.

(** * Concrete arrays *)

Section ConcreteArrays.
Import Linalg.

Local Open Scope Q_scope.

Ltac by_cases2 :=
  let i := fresh "i" in
  let j := fresh "j" in
  intros i j ? ?;
  destruct i as [|[|i]]; destruct j as [|[|j]];
  simpl in *; try lia; vm_compute; reflexivity.

(** C8 fails as stated: the lists [[0, 1]] and [[1, 0]] hold the same
    indices, yet the selection matrices differ, and the second one has its
    rows in decreasing index order. *)
Lemma selection_order_counterexample :
  [0; 1]%nat ≡ₚ [1; 0]%nat /\
  exists C1 C2,
    selection_matrix 2 [0; 1]%nat = Ok C1 /\
    selection_matrix 2 [1; 0]%nat = Ok C2 /\
    ~ same_array C1 C2 /\
    entry C2 0%nat 1%nat = 1 /\ entry C2 1%nat 0%nat = 1.
Proof.
  split; [apply perm_swap|].
  eexists. eexists. split; [reflexivity|]. split; [reflexivity|].
  split; [|split; reflexivity].
  intros (_ & _ & H). specialize (H 0%nat 0%nat). simpl in H.
  specialize (H ltac:(lia) ltac:(lia)). vm_compute in H. discriminate.
Qed.

(** C8, witness. *)
Lemma selection_matrix_rows_witness :
  exists C,
    selection_matrix 3 [2; 0]%nat = Ok C /\
    nrows C = length [2; 0]%nat /\
    ncols C = 3%nat /\
    (forall k i j, [2; 0]%nat !! k = Some i -> entry C k j = delta i j) /\
    StronglySorted le (np_sort [2; 0]%nat) /\
    forall l', [2; 0]%nat ≡ₚ l' ->
               selection_matrix 3 (np_sort l')
               = selection_matrix 3 (np_sort [2; 0]%nat).
Proof.
  apply (selection_matrix_rows 3 [2; 0]%nat).
  repeat constructor.
Defined.




Lemma demo_B_inverse : is_inverse demo_G demo_B.
Proof.
  split; [reflexivity|]. split; [reflexivity|]. split; [reflexivity|].
  split; by_cases2.
Qed.










End ConcreteArrays.

(** * A concrete snapshot *)

Section ConcreteSnapshot.
Import RecoverMap.

(** C10, witness: three measurements and one masked position, as a 2-by-2
    map; [None] stands for [nan]. *)
Lemma recover_map_spec_witness :
  recover_map (option Z) None [Some 7; Some 8; Some 9]%Z [1] 2 2
    = Ok [[Some 7; Some 8]; [None; Some 9]]%Z /\
  exists X_vect X_mat,
    recover_vect (option Z) None [Some 7; Some 8; Some 9]%Z [1] = Ok X_vect /\
    recover_map (option Z) None [Some 7; Some 8; Some 9]%Z [1] 2 2
      = Ok X_mat /\
    length X_vect = 3 + 1 /\
    (forall p, p ∈ [1] -> X_vect !! p = Some None) /\
    (forall p, p < 3 + 1 -> p ∉ [1] ->
               X_vect !! p = [Some 7; Some 8; Some 9]%Z !! rank [1] p) /\
    (fun p => X_vect !! p) <$> filter (fun p => p ∉ [1]) (seq 0 (3 + 1))
      = Some <$> [Some 7; Some 8; Some 9]%Z /\
    (None ∉ [Some 7; Some 8; Some 9]%Z ->
     forall p, X_vect !! p = Some None <-> p ∈ [1]) /\
    length X_mat = 2 /\
    Forall (fun row => length row = 2) X_mat /\
    forall i j, i < 2 -> j < 2 ->
                X_mat !! i ≫= (fun row => row !! j)
                = X_vect !! (i + j * 2).
Proof.
  split; [reflexivity|].
  apply (recover_map_spec (A := option Z) None
           [Some 7; Some 8; Some 9]%Z [1] 2 2).
  - repeat constructor. apply not_elem_of_nil.
  - repeat constructor.
  - reflexivity.
Defined.

End ConcreteSnapshot.

(** * Further facts about [networkPlanning_iterative] *)

Section PlannerExtras.
Import Numpy IRL1.

Variable n : nat.
Variable epsilon : Q.
Variable n_it : nat.
Variable hs : nat -> list Q.

(** X1: when the stall test holds, the forced freeze raises [IndexError]
    exactly when every index of [h] is already in
    [sensor_placement.locations_monitored]. *)
Theorem forced_freeze_IndexError (st : state) :
  stalled epsilon n_it st = Ok true ->
  (check_convergence epsilon n_it st = Raise IndexError <->
   forall j, j < length (h_value st) -> j ∈ sp_monitored st).
Proof.
  intros Hst.
  destruct (check_convergence_stalled epsilon n_it st Hst)
    as [[Hall Hr] | (p & st' & Hok & _ & Hp & Hlt & _)].
  - split; [by intros _ | by intros _].
  - split.
    + rewrite Hok. discriminate.
    + intros Hall. exfalso. by apply Hp, Hall.
Qed.

Lemma outer_pass_classified (h : list Q) (st st' : state) :
  outer_pass epsilon n_it h st = Ok st' -> classified st <= classified st'.
Proof.
  intros Hp. apply outer_pass_prefix in Hp as [HS HSc].
  apply prefix_length in HS, HSc. unfold classified. lia.
Qed.

(** X2: the number of classified indices never decreases over a pass, so a
    run that has classified more than [n] indices never returns: it goes on
    until a pass raises. *)
Theorem overshoot_never_returns (fuel k : nat) (st : state)
    (r : list nat * list nat) :
  n < classified st ->
  loop n epsilon n_it hs fuel k st <> Returned r.
Proof.
  revert k st. induction fuel as [|fuel IH]; intros k st Hgt; simpl;
    destruct (Nat.eqb_spec (classified st) n) as [Heq | Hne]; try lia.
  - discriminate.
  - destruct (outer_pass epsilon n_it (hs k) st) as [st'|e] eqn:Hp;
      [|discriminate].
    apply IH. apply outer_pass_classified in Hp. lia.
Qed.

Lemma loop_returned (fuel k : nat) (st : state) (mon unmon : list nat) :
  loop n epsilon n_it hs fuel k st = Returned (mon, unmon) ->
  length mon + length unmon = n /\
  locations_monitored st `prefix_of` mon /\
  locations_unmonitored st `prefix_of` unmon /\
  (NoDup (locations_monitored st) -> NoDup mon) /\
  (NoDup (locations_unmonitored st) -> NoDup unmon).
Proof.
  revert k st. induction fuel as [|fuel IH]; intros k st; simpl;
    destruct (Nat.eqb_spec (classified st) n) as [Heq | Hne];
    try (intros [= <- <-]; done); try done.
  destruct (outer_pass epsilon n_it (hs k) st) as [st'|e] eqn:Hp; [|done].
  intros Hl. apply IH in Hl as (Hlen & HS & HSc & HnS & HnSc).
  destruct (outer_pass_prefix _ _ _ _ _ Hp) as [HpS HpSc].
  destruct (outer_pass_NoDup _ _ _ _ _ Hp) as [HdS HdSc].
  split; [done|]. split; [by etrans|]. split; [by etrans|]. split; auto.
Qed.

(** X3: whatever the solver does, the lists a run returns have lengths that
    add up to [n], extend the lists the caller passed in, and are free of
    duplicates when those were. *)
Theorem returned_lists (fuel : nat) (keeps : bool)
    (h_prev0 weights : list Q) (S0 Sc0 mon unmon : list nat) :
  networkPlanning_iterative n epsilon n_it hs fuel keeps
    h_prev0 weights S0 Sc0 = Returned (mon, unmon) ->
  length mon + length unmon = n /\
  S0 `prefix_of` mon /\ Sc0 `prefix_of` unmon /\
  (NoDup S0 -> NoDup mon) /\ (NoDup Sc0 -> NoDup unmon).
Proof. intros H. by apply loop_returned in H. Qed.

(** X4: a pass completes only if every index of both lists is a position of
    [h]: an index past the end of [h], passed in by the caller, makes the
    pass raise. *)
Theorem completed_pass_in_range (h : list Q) (st st' : state) :
  outer_pass epsilon n_it h st = Ok st' ->
  Forall (fun i => i < length h) (locations_monitored st') /\
  Forall (fun i => i < length h) (locations_unmonitored st') /\
  Forall (fun i => i < length h) (locations_monitored st) /\
  Forall (fun i => i < length h) (locations_unmonitored st).
Proof.
  intros Hp.
  destruct (outer_pass_prefix _ _ _ _ _ Hp) as [[kS HkS] [kSc HkSc]].
  apply outer_pass_steps in Hp as (st1 & Hc & Hu).
  apply check_convergence_frame in Hc as (Hh & _). simpl in Hh.
  pose proof (update_parameters_spec _ _ _ Hu) as (HS & HSc & _).
  unfold update_parameters in Hu.
  destruct (set_at (locations_monitored st1) 1 (h_value st1)) as [h1|] eqn:H1;
    cbn in Hu; [|done].
  destruct (set_at (locations_unmonitored st1) 0 h1) as [h2|] eqn:H2;
    cbn in Hu; [|done].
  pose proof (set_at_length _ _ _ _ H1) as Hl1.
  apply set_at_in_range in H1, H2. rewrite Hl1 in H2. rewrite Hh in H1, H2.
  rewrite <- HS in H1. rewrite <- HSc in H2.
  split; [done|]. split; [done|].
  rewrite HkS in H1. rewrite HkSc in H2.
  apply Forall_app in H1 as [H1 _]. apply Forall_app in H2 as [H2 _]. done.
Qed.

Lemma inverse_le (a b : Q) : (0 < a)%Q -> (a <= b)%Q -> (1 / b <= 1 / a)%Q.
Proof.
  intros Ha Hab. assert (Hb : (0 < b)%Q) by lra.
  apply Qle_shift_div_l; [done|].
  assert (He : (1 / b * a == a / b)%Q) by (field; lra). rewrite He.
  apply Qle_shift_div_r; [done | lra].
Qed.

(** X5: for a solver output in [[0,1]^n] and [epsilon > 0], the weights a
    pass leaves are one per location and lie between [1/(1 + epsilon)] and
    [1/epsilon]. *)
Theorem weights_bounded (h : list Q) (st st' : state) :
  outer_pass epsilon n_it h st = Ok st' ->
  (0 < epsilon)%Q ->
  Forall (fun x => 0 <= x <= 1)%Q h ->
  length (w_value st') = length h /\
  Forall (fun w => 1 / (1 + epsilon) <= w <= 1 / epsilon)%Q (w_value st').
Proof.
  intros Hp Heps Hh.
  apply outer_pass_steps in Hp as (st1 & Hc & Hu).
  apply check_convergence_frame in Hc as (Hh1 & _). simpl in Hh1.
  apply update_parameters_spec in Hu as (_ & _ & _ & Hw & _).
  rewrite Hw, Hh1. split; [by rewrite length_map|].
  apply Forall_fmap. eapply Forall_impl; [exact Hh|].
  intros x [H0 H1]. simpl.
  assert (Hpos : (0 < x + epsilon)%Q) by lra.
  split; apply inverse_le; lra.
Qed.

Lemma outer_pass_it (h : list Q) (st st' : state) :
  outer_pass epsilon n_it h st = Ok st' ->
  (it st <> n_it /\ it st' = it st + 1) \/ it st' = 1.
Proof.
  intros Hp. apply outer_pass_steps in Hp as (st1 & Hc & Hu).
  apply update_parameters_spec in Hu as (_ & _ & _ & _ & _ & Hit & _).
  rewrite Hit.
  destruct (check_convergence_cases _ _ _ _ Hc) as [[Hst ->] | Hst].
  - left. apply stalled_false_it in Hst. done.
  - destruct (check_convergence_stalled _ _ _ Hst)
      as [[_ Hr] | (p & st2 & Hok & _ & _ & _ & _ & _ & _ & Hit2 & _)];
      [congruence|].
    rewrite Hok in Hc. injection Hc as <-. right. lia.
Qed.

(** X6: with [n_it >= 1] the counter [it] never exceeds [n_it] at the head
    of the loop, and it is at least 1 after the first pass; so the test
    [it == n_it] is never skipped over and no more than [n_it] passes in a
    row go without a forced freeze. *)
Theorem counter_bounded (st0 : state) (k : nat) (st : state) :
  reaches n epsilon n_it hs st0 k st ->
  1 <= n_it ->
  it st0 <= n_it ->
  it st <= n_it /\ (0 < k -> 1 <= it st).
Proof.
  intros Hr Hn H0. induction Hr as [|k st st' Hr IH Hne Hp].
  - split; [done | lia].
  - destruct IH as [IH _].
    destruct (outer_pass_it _ _ _ Hp) as [[Hit ->] | ->]; lia.
Qed.

(** X7: when the solver's vector and [h_prev] differ in length and neither
    has a single entry, the pass raises [ValueError] at the convergence
    test. *)
Theorem shape_mismatch_raises (h : list Q) (st : state) :
  length h <> length (h_prev st) ->
  length h <> 1 ->
  length (h_prev st) <> 1 ->
  outer_pass epsilon n_it h st = Raise ValueError.
Proof.
  intros Hne H1 H2. unfold outer_pass, check_convergence, stalled. simpl.
  unfold sub. apply Nat.eqb_neq in Hne. rewrite Hne.
  destruct h as [|x [|x' h]], (h_prev st) as [|y [|y' hp]];
    simpl in *; try done.
Qed.

(** X8: what a completed pass adds.  The unmonitored list receives exactly
    the indices with [h_i <= epsilon] it did not hold; the monitored list
    receives the indices with [h_i >= 1 - epsilon] it did not hold and then
    at most one forced index, none when the stall test fails or when the
    solver object holds a list of its own. *)
Theorem pass_additions (h : list Q) (st st' : state) :
  outer_pass epsilon n_it h st = Ok st' ->
  locations_unmonitored st' =
    locations_unmonitored st
      ++ fresh (locations_unmonitored st) (below epsilon h) /\
  exists forced,
    locations_monitored st' =
      (locations_monitored st
         ++ fresh (locations_monitored st) (above epsilon h)) ++ forced /\
    length forced <= 1 /\
    (forall l, sp_locations_monitored st = Own l -> forced = []) /\
    (stalled epsilon n_it (update_sets epsilon (solve h st)) = Ok false ->
     forced = []).
Proof.
  intros Hp. apply outer_pass_steps in Hp as (st1 & Hc & Hu).
  apply update_parameters_spec in Hu as (-> & -> & _).
  set (st0 := update_sets epsilon (solve h st)) in *.
  destruct (check_convergence_cases _ _ _ _ Hc) as [[Hst ->] | Hst].
  - split; [done|]. exists []. rewrite app_nil_r. split; [done|].
    split; [simpl; lia|]. done.
  - destruct (check_convergence_stalled _ _ _ Hst)
      as [[_ Hr] | (p & st2 & Hok & _ & _ & _ & _ & HS & HSc & _)];
      [congruence|].
    rewrite Hok in Hc. injection Hc as <-. rewrite HS, HSc.
    split; [done|].
    change (sp_locations_monitored st0) with (sp_locations_monitored st).
    destruct (sp_locations_monitored st) as [|l0].
    + exists [p]. split; [done|]. split; [simpl; lia|].
      split; [done | congruence].
    + exists []. rewrite app_nil_r. split; [done|]. split; [simpl; lia|].
      done.
Qed.

End PlannerExtras.

(** * Further facts about [recover_map] *)

Section RecoverMapExtras.
Import RecoverMap.

Context {A : Type} (nan : A).

Lemma fill_raises (y : list A) (idx_nan : list nat) (m k : nat) (X : list A) :
  (exists p, k <= p < k + m /\ (p ∉ idx_nan) /\ length y <= rank idx_nan p) ->
  fill A y idx_nan (seq k m) X (rank idx_nan k) = Raise IndexError.
Proof.
  revert k X. induction m as [|m IH]; intros k X (p & Hp & Hn & Hr); [lia|].
  simpl. destruct (decide (k ∈ idx_nan)) as [Hin | Hnin].
  - pose proof (IH (S k) X) as IH'.
    rewrite rank_S, decide_True in IH' by done. apply IH'.
    exists p. split; [|done].
    assert (p <> k) by (intros ->; done). lia.
  - destruct (y !! rank idx_nan k) as [v|] eqn:Hv; [|done].
    pose proof (IH (S k) (<[k := v]> X)) as IH'.
    rewrite rank_S, decide_False in IH' by done. apply IH'.
    exists p. split; [|done].
    assert (p <> k).
    { intros ->. apply lookup_lt_Some in Hv. lia. }
    lia.
Qed.

Lemma rank_hits (idx_nan : list nat) (N c : nat) :
  c < rank idx_nan N ->
  exists p, p < N /\ (p ∉ idx_nan) /\ rank idx_nan p = c.
Proof.
  induction N as [|N IH]; [unfold rank; simpl; lia|].
  rewrite rank_S. destruct (decide (N ∈ idx_nan)) as [Hin | Hnin].
  - intros H. destruct (IH H) as (p & Hp & Hr). exists p. split; [lia | done].
  - intros H. destruct (decide (rank idx_nan N = c)) as [Heq | Hne].
    + exists N. split; [lia | done].
    + destruct IH as (p & Hp & Hr); [lia|]. exists p. split; [lia | done].
Qed.

(** The positions outside [idx_nan] outnumber [y] unless [idx_nan] lists
    distinct positions of the vector. *)
Lemma rank_excess (idx_nan : list nat) (N : nat) :
  ~ (NoDup idx_nan /\ Forall (fun i => i < N) idx_nan) ->
  N < rank idx_nan N + length idx_nan.
Proof.
  intros Hbad. unfold rank.
  pose proof (filter_app_complement (fun q => q ∈ idx_nan) (seq 0 N)) as Hperm.
  apply Permutation_length in Hperm.
  rewrite length_app, length_seq in Hperm.
  assert (Hsub : filter (fun q => q ∈ idx_nan) (seq 0 N) ⊆+ idx_nan).
  { apply NoDup_submseteq; [apply NoDup_filter, NoDup_seq|].
    intros x Hx. by apply list_elem_of_filter in Hx as [Hx _]. }
  pose proof (submseteq_length _ _ Hsub) as Hle.
  destruct (decide (length idx_nan
                    <= length (filter (fun q => q ∈ idx_nan) (seq 0 N))))
    as [Hge | Hlt]; [|lia].
  exfalso. apply Hbad.
  pose proof (submseteq_length_Permutation _ _ Hsub Hge) as Hp.
  split.
  - rewrite <- Hp. apply NoDup_filter, NoDup_seq.
  - apply Forall_forall. intros x Hx. rewrite <- Hp in Hx.
    apply list_elem_of_filter in Hx as [_ Hx]. apply elem_of_seq in Hx. lia.
Qed.

(** X9: [recover_map] raises [IndexError] whenever [idx_nan] repeats a
    position or lists one past the end of the vector: the loop then finds
    more positions to fill than [y] has entries. *)
Theorem recover_map_IndexError (y : list A) (idx_nan : list nat)
    (n_rows n_cols : nat) :
  ~ (NoDup idx_nan /\
     Forall (fun i => i < length y + length idx_nan) idx_nan) ->
  recover_vect A nan y idx_nan = Raise IndexError /\
  recover_map A nan y idx_nan n_rows n_cols = Raise IndexError.
Proof.
  intros Hbad.
  set (N := length y + length idx_nan) in *.
  pose proof (rank_excess idx_nan N Hbad) as Hex.
  destruct (rank_hits idx_nan N (length y)) as (p & Hp & Hn & Hr);
    [unfold N in *; lia|].
  assert (Hv : recover_vect A nan y idx_nan = Raise IndexError).
  { unfold recover_vect. fold N.
    change 0 with (rank idx_nan 0) at 2.
    apply fill_raises. exists p. split; [lia|]. split; [done | lia]. }
  split; [done|]. unfold recover_map. by rewrite Hv.
Qed.

(** X10: with a proper [idx_nan], a shape whose size is not
    [len(y) + len(idx_nan)] makes the final reshape raise [ValueError]. *)
Theorem recover_map_ValueError (y : list A) (idx_nan : list nat)
    (n_rows n_cols : nat) :
  NoDup idx_nan ->
  Forall (fun i => i < length y + length idx_nan) idx_nan ->
  n_rows * n_cols <> length y + length idx_nan ->
  recover_map A nan y idx_nan n_rows n_cols = Raise ValueError.
Proof.
  intros Hnd Hr Hsize.
  set (N := length y + length idx_nan) in *.
  pose proof (rank_total idx_nan N Hnd Hr) as Htot.
  assert (Hy : forall p, p < N -> p ∉ idx_nan -> rank idx_nan p < length y).
  { intros p Hp Hn. pose proof (rank_lt idx_nan N p Hp Hn). unfold N in *. lia. }
  destruct (fill_seq y idx_nan N N 0 (replicate N nan))
    as (X & Hf & HX & _); [lia | apply length_replicate | done |].
  change (rank idx_nan 0) with 0 in Hf.
  assert (Hvect : recover_vect A nan y idx_nan = Ok X) by exact Hf.
  unfold recover_map. rewrite Hvect. cbn. unfold reshape_F.
  rewrite HX. apply Nat.eqb_neq in Hsize. by rewrite Hsize.
Qed.

Lemma rank_nil (p : nat) : rank [] p = p.
Proof.
  induction p as [|p IH]; [done|].
  rewrite rank_S, decide_False by apply not_elem_of_nil. by rewrite IH.
Qed.

(** X11: with no masked position (the data set without land pixels, where
    the scripts set the index list to [[]]) the flat vector is [y] itself,
    and the map is [y] reshaped in column-major order. *)
Theorem recover_map_no_mask (y : list A) (n_rows n_cols : nat) :
  recover_vect A nan y [] = Ok y /\
  recover_map A nan y [] n_rows n_cols = reshape_F A nan y n_rows n_cols.
Proof.
  assert (Hv : recover_vect A nan y [] = Ok y).
  { set (N := length y + length (@nil nat)).
    assert (HN : N = length y) by (unfold N; simpl; lia).
    destruct (fill_seq y [] N N 0 (replicate N nan))
      as (X & Hf & HX & Hl); [lia | apply length_replicate | |].
    { intros p Hp _. rewrite rank_nil. lia. }
    change (rank [] 0) with 0 in Hf.
    assert (X = y) as <-; [|exact Hf].
    apply list_eq. intros p. rewrite Hl, rank_nil.
    destruct (decide (p < N)) as [Hp | Hp].
    - rewrite decide_True; [done|]. split; [lia | apply not_elem_of_nil].
    - rewrite decide_False by lia.
      rewrite (proj1 (lookup_replicate_None N nan p)) by lia.
      symmetry. apply lookup_ge_None. lia. }
  split; [done|]. unfold recover_map. by rewrite Hv.
Qed.

End RecoverMapExtras.

(** * Facts about the scripts around the planner *)

Section ScriptFacts.
Import Numpy Linalg Scripts.

Local Open Scope Q_scope.

Lemma seq_sorted (j m : nat) : StronglySorted lt (seq j m).
Proof.
  revert j. induction m as [|m IH]; intros j; simpl; constructor; [done|].
  apply Forall_forall. intros x Hx. apply elem_of_seq in Hx. lia.
Qed.

(** X12: the list the scripts build as
    [[i for i in np.arange(n) if i not in locations_monitored]] holds exactly
    the indices below [n] that are not monitored, each once and in increasing
    order; with a duplicate-free monitored list of indices below [n] the two
    lists have [n] entries together. *)
Theorem locations_unmonitored_complement (n : nat) (S : list nat) :
  (forall i, i ∈ locations_unmonitored n S <-> (i < n)%nat /\ i ∉ S) /\
  StronglySorted lt (locations_unmonitored n S) /\
  NoDup (locations_unmonitored n S) /\
  (NoDup S -> Forall (fun i => (i < n)%nat) S ->
   (length S + length (locations_unmonitored n S))%nat = n).
Proof.
  unfold locations_unmonitored. split; [|split; [|split]].
  - intros i. rewrite list_elem_of_filter, elem_of_seq. split.
    + intros [Hn Hi]. split; [lia | done].
    + intros [Hi Hn]. split; [done | lia].
  - apply StronglySorted_filter, seq_sorted.
  - apply NoDup_filter, NoDup_seq.
  - intros Hnd Hr. pose proof (rank_total S n Hnd Hr) as H.
    unfold RecoverMap.rank in H. lia.
Qed.

Lemma argwhere_from_sorted (p : Q -> bool) (h : list Q) (k : nat) :
  StronglySorted lt (argwhere_from k p h).
Proof.
  revert k. induction h as [|y t IH]; intros k; simpl; [constructor|].
  destruct (p y); [|apply IH].
  constructor; [apply IH|].
  apply Forall_forall. intros i Hi. apply argwhere_from_spec in Hi. lia.
Qed.

(** The first position [argwhere] reports is the first one that passes. *)
Lemma argwhere_first (p : Q -> bool) (h : list Q) (i : nat) (rest : list nat) :
  argwhere p h = i :: rest ->
  (exists x, h !! i = Some x /\ p x = true) /\
  forall j x, (j < i)%nat -> h !! j = Some x -> p x = false.
Proof.
  intros Heq. split.
  - apply argwhere_spec. rewrite Heq. by left.
  - intros j x Hj Hx. destruct (p x) eqn:Hp; [|done]. exfalso.
    assert (Hin : j ∈ argwhere p h) by (apply argwhere_spec; eauto).
    pose proof (argwhere_from_sorted p h 0) as Hs.
    fold (argwhere p h) in Hs. rewrite Heq in Hs, Hin.
    apply StronglySorted_inv in Hs as [_ Hall].
    apply elem_of_cons in Hin as [-> | Hin]; [lia|].
    rewrite Forall_forall in Hall. specialize (Hall j Hin). lia.
Qed.

Lemma argwhere_nil (p : Q -> bool) (h : list Q) :
  argwhere p h = [] <-> Forall (fun x => p x = false) h.
Proof.
  split.
  - intros Heq. apply Forall_forall. intros x Hx.
    apply list_elem_of_lookup in Hx as [i Hi].
    destruct (p x) eqn:Hp; [|done]. exfalso.
    assert (Hin : i ∈ argwhere p h) by (apply argwhere_spec; eauto).
    rewrite Heq in Hin. by apply elem_of_nil in Hin.
  - intros Hall. destruct (argwhere p h) as [|i rest] eqn:Heq; [done|].
    exfalso. apply argwhere_first in Heq as [(x & Hx & Hp) _].
    rewrite Forall_forall in Hall.
    apply list_elem_of_lookup_2 in Hx. apply Hall in Hx. congruence.
Qed.

(** X13: the sparsity the study settles on is the first column, in the order
    of the frame, whose median error is at most the threshold: every column
    before it has a larger median.  When no column qualifies the expression
    raises [IndexError]. *)
Theorem signal_sparsity_first (rmse_threshold : Q) (medians : list (nat * Q)) :
  (forall s, signal_sparsity rmse_threshold medians = Ok s ->
     exists i m,
       medians !! i = Some (s, m) /\ m <= rmse_threshold /\
       forall j s' m', (j < i)%nat -> medians !! j = Some (s', m') ->
                       rmse_threshold < m') /\
  (signal_sparsity rmse_threshold medians = Raise IndexError <->
   Forall (fun c => rmse_threshold < snd c) medians).
Proof.
  unfold signal_sparsity.
  destruct (argwhere (fun x => Qle_bool x rmse_threshold) (map snd medians))
    as [|i rest] eqn:Heq.
  - split; [done|]. split; [|done]. intros _.
    apply argwhere_nil in Heq. apply Forall_fmap in Heq.
    eapply Forall_impl; [exact Heq|]. intros c Hc. simpl in Hc.
    apply Qnot_le_lt. intros Hle. apply Qle_bool_iff in Hle. congruence.
  - apply argwhere_first in Heq as [(x & Hx & Hp) Hbefore].
    rewrite list_lookup_fmap in Hx.
    destruct (medians !! i) as [[s m]|] eqn:Hi; [|done].
    simpl in Hx. injection Hx as <-.
    rewrite list_lookup_fmap, Hi. simpl. split.
    + intros s0 [= <-]. exists i, m. split; [done|].
      split; [by apply Qle_bool_iff|].
      intros j s' m' Hj Hm.
      assert (Hf : Qle_bool m' rmse_threshold = false).
      { apply (Hbefore j m' Hj). by rewrite list_lookup_fmap, Hm. }
      apply Qnot_le_lt. intros Hle. apply Qle_bool_iff in Hle. congruence.
    + split; [done|]. intros Hall. exfalso.
      rewrite Forall_forall in Hall.
      apply list_elem_of_lookup_2 in Hi. apply Hall in Hi. simpl in Hi.
      apply Qle_bool_iff in Hp. lra.
Qed.

Lemma cumsum_from_props (acc : Q) (t : list Q) :
  Forall (fun x => 0 <= x) t ->
  StronglySorted Qle (cumsum_from acc t) /\
  Forall (fun c => acc <= c /\ c <= acc + np_sum t) (cumsum_from acc t) /\
  (forall c, last (cumsum_from acc t) = Some c -> c == acc + np_sum t) /\
  0 <= np_sum t.
Proof.
  intros Ht. revert acc. induction Ht as [|x t Hx Ht IH]; intros acc; simpl.
  - split; [constructor|]. split; [constructor|]. split; [done | lra].
  - destruct (IH (acc + x)) as (Hs & Hb & Hl & Hn).
    fold (np_sum t) in *.
    split.
    { constructor; [done|]. eapply Forall_impl; [exact Hb|].
      intros c [Hc _]. done. }
    split.
    { constructor; [lra|]. eapply Forall_impl; [exact Hb|].
      intros c [Hc1 Hc2]. simpl in *. lra. }
    split; [|lra].
    intros c. rewrite last_cons.
    destruct (last (cumsum_from (acc + x) t)) as [c'|] eqn:Hlast.
    + intros [= <-]. rewrite (Hl c' eq_refl). ring.
    + intros [= <-]. destruct t as [|x' t']; [simpl; ring|].
      simpl in Hlast. rewrite last_cons in Hlast.
      by destruct (last (cumsum_from (acc + x + x') t')).
Qed.

(** X14: for non-negative singular values with a positive sum the cumulative
    energy [np.cumsum(sing_vals)/np.sum(sing_vals)] has one entry per
    singular value, never decreases, stays within [[0, 1]] and ends at 1. *)
Theorem cumulative_energy_curve (sing_vals : list Q) :
  Forall (fun x => 0 <= x) sing_vals ->
  0 < np_sum sing_vals ->
  length (cumulative_energy sing_vals) = length sing_vals /\
  StronglySorted Qle (cumulative_energy sing_vals) /\
  Forall (fun c => 0 <= c <= 1) (cumulative_energy sing_vals) /\
  exists c, last (cumulative_energy sing_vals) = Some c /\ c == 1.
Proof.
  intros Hv Hsum. unfold cumulative_energy.
  destruct sing_vals as [|x t]; [simpl in Hsum; lra|].
  apply Forall_cons in Hv as [Hx Ht].
  destruct (cumsum_from_props x t Ht) as (Hs & Hb & Hl & Hn).
  set (total := np_sum (x :: t)) in *.
  assert (Htot : total == x + np_sum t) by reflexivity.
  assert (Hcs : StronglySorted Qle (cumsum (x :: t))).
  { simpl. constructor; [done|]. eapply Forall_impl; [exact Hb|].
    intros c [Hc _]. done. }
  assert (Hcb : Forall (fun c => 0 <= c /\ c <= total) (cumsum (x :: t))).
  { simpl. constructor; [lra|]. eapply Forall_impl; [exact Hb|].
    intros c [Hc1 Hc2]. simpl in *. lra. }
  assert (Hlen : length (cumsum (x :: t)) = length (x :: t)).
  { simpl. f_equal. clear. generalize x. induction t as [|y t IH]; intros acc;
      simpl; [done|]. by rewrite IH. }
  split; [by rewrite length_map|].
  split.
  { apply (StronglySorted_fmap _ Qle Qle); [|done].
    intros a b Hab. unfold Qdiv. apply Qmult_le_compat_r; [done|].
    apply Qlt_le_weak, Qinv_lt_0_compat. done. }
  split.
  { apply Forall_fmap. eapply Forall_impl; [exact Hcb|].
    intros c [Hc1 Hc2]. simpl. split.
    - apply Qle_shift_div_l; [done | lra].
    - apply Qle_shift_div_r; [done | lra]. }
  rewrite fmap_last.
  assert (Hlast : exists c, last (cumsum (x :: t)) = Some c /\ c == total).
  { simpl. rewrite last_cons.
    destruct (last (cumsum_from x t)) as [c|] eqn:Hc.
    - exists c. split; [done|]. rewrite (Hl c eq_refl). by rewrite Htot.
    - exists x. split; [done|]. destruct t as [|x' t']; [rewrite Htot; simpl; ring|].
      simpl in Hc. rewrite last_cons in Hc.
      by destruct (last (cumsum_from (x + x') t')). }
  destruct Hlast as (c & -> & Hc). simpl. eexists. split; [done|].
  rewrite Hc. field. lra.
Qed.

(** X15: for non-negative singular values, not all zero, the normalised
    values [sing_vals / np.max(sing_vals)] have one entry per singular value,
    all within [[0, 1]], and some entry is 1. *)
Theorem sing_vals_normalized_range (sing_vals : list Q) :
  Forall (fun x => 0 <= x) sing_vals ->
  (exists x, x ∈ sing_vals /\ 0 < x) ->
  exists w,
    sing_vals_normalized sing_vals = Ok w /\
    length w = length sing_vals /\
    Forall (fun x => 0 <= x <= 1) w /\
    exists x, x ∈ w /\ x == 1.
Proof.
  intros Hv (x0 & Hx0 & Hpos).
  destruct (amax_spec sing_vals) as (m & Hm & Hin & Hall).
  { intros ->. by apply elem_of_nil in Hx0. }
  assert (Hmpos : 0 < m).
  { rewrite Forall_forall in Hall. specialize (Hall x0 Hx0). simpl in Hall. lra. }
  unfold sing_vals_normalized. rewrite Hm. cbn.
  eexists. split; [done|]. split; [by rewrite length_map|]. split.
  - apply Forall_fmap, Forall_forall. intros x Hx. simpl.
    rewrite Forall_forall in Hv, Hall.
    specialize (Hv x Hx). specialize (Hall x Hx). simpl in *. split.
    + apply Qle_shift_div_l; [done | lra].
    + apply Qle_shift_div_r; [done | lra].
  - exists (m / m). split.
    + apply (list_elem_of_fmap_2 (fun x => x / m) sing_vals m Hin).
    + field. lra.
Qed.

(** X17: a row of [error_var] is the row of the squares of the errors: the
    diagonal of the outer product of a vector with itself.  Its entries are
    non-negative. *)
Theorem error_var_row_squares (e : list Q) :
  exists V,
    error_var_row e = Ok V /\
    Forall2 Qeq V (map (fun x => x * x) e) /\
    Forall (fun x => 0 <= x) V.
Proof.
  unfold error_var_row, matmul. simpl. eexists. split; [reflexivity|].
  unfold diag. simpl. rewrite Nat.min_id.
  assert (Hsq : Forall2 Qeq
            (map (fun i => 0 + nth i e 0 * nth i e 0) (seq 0 (length e)))
            (map (fun x => x * x) e)).
  { clear. induction e as [|x e IH]; simpl; [constructor|].
    constructor; [ring|]. rewrite <- fmap_S_seq.
    rewrite <- list_fmap_compose. exact IH. }
  split; [exact Hsq|].
  apply Forall_fmap, Forall_forall. intros i _. simpl.
  generalize (nth i e 0). intros x. nra.
Qed.

End ScriptFacts.

(** * Further facts about the variance model *)

Section LinalgExtras.
Import Linalg Scripts.

Local Open Scope Q_scope.

Lemma delta_sym (i j : nat) : delta i j = delta j i.
Proof. unfold delta. by rewrite Nat.eqb_sym. Qed.

Lemma sum_shift (f : nat -> Q) (m : nat) :
  sum f (S m) == f 0%nat + sum (fun k => f (S k)) m.
Proof.
  induction m as [|m IH]; [simpl; ring|].
  change (sum f (S (S m))) with (sum f (S m) + f (S m)).
  rewrite IH. simpl. ring.
Qed.

Lemma sum_nonneg (f : nat -> Q) (m : nat) :
  (forall k, (k < m)%nat -> 0 <= f k) -> 0 <= sum f m.
Proof.
  induction m as [|m IH]; intros H; simpl; [lra|].
  assert (H1 : 0 <= sum f m) by (apply IH; intros; apply H; lia).
  assert (H2 : 0 <= f m) by (apply H; lia). lra.
Qed.

(** A sum over the positions of a list is a sum over its entries. *)
Lemma sum_nth_foldr (f : nat -> Q) (l : list nat) :
  sum (fun k => f (nth k l 0%nat)) (length l)
  == foldr (fun i acc => f i + acc) 0 l.
Proof.
  induction l as [|x l IH]; [reflexivity|].
  cbn [length foldr].
  rewrite (sum_shift (fun k => f (nth k (x :: l) 0%nat)) (length l)).
  cbn [nth]. by rewrite IH.
Qed.

Lemma foldr_perm (f : nat -> Q) (l l' : list nat) :
  l ≡ₚ l' ->
  foldr (fun i acc => f i + acc) 0 l == foldr (fun i acc => f i + acc) 0 l'.
Proof.
  induction 1 as [|x l l' _ IH|x y l|l l' l'' _ IH1 _ IH2]; simpl.
  - reflexivity.
  - by rewrite IH.
  - ring.
  - by rewrite IH1.
Qed.

Lemma sum_nth_perm (f : nat -> Q) (l l' : list nat) :
  l ≡ₚ l' ->
  sum (fun k => f (nth k l 0%nat)) (length l)
  == sum (fun k => f (nth k l' 0%nat)) (length l').
Proof.
  intros Hp. rewrite !sum_nth_foldr. by apply foldr_perm.
Qed.

Lemma take_rows_inv (A C : ndarray) (idx : list nat) :
  take_rows A idx = Ok C ->
  Forall (fun i => (i < nrows A)%nat) idx /\
  C = mkArray (length idx) (ncols A) (fun k j => entry A (nth k idx 0%nat) j).
Proof.
  unfold take_rows.
  destruct (forallb (fun i => i <? nrows A) idx) eqn:Hb; [|done].
  intros [= <-]. split; [|done].
  apply Forall_forall. intros i Hi.
  rewrite forallb_forall in Hb. apply list_elem_of_In in Hi.
  by apply Nat.ltb_lt, Hb.
Qed.

Lemma nth_in_range (l : list nat) (n k : nat) :
  Forall (fun i => (i < n)%nat) l -> (k < length l)%nat ->
  (nth k l 0 < n)%nat.
Proof.
  intros Hl Hk. rewrite Forall_forall in Hl. apply Hl.
  apply list_elem_of_In, nth_In, Hk.
Qed.

(** The Gram matrix of the scripts, entry by entry: the selection matrix
    picks the monitored rows of [Psi], nothing else. *)
Lemma gram_selection (Psi : ndarray) (l : list nat) :
  Forall (fun i => (i < nrows Psi)%nat) l ->
  exists C G,
    selection_matrix (nrows Psi) l = Ok C /\
    gram Psi C = Ok G /\
    nrows G = ncols Psi /\ ncols G = ncols Psi /\
    forall a b,
      entry G a b
      == sum (fun k => entry Psi (nth k l 0%nat) a * entry Psi (nth k l 0%nat) b)
             (length l).
Proof.
  intros Hl.
  exists (mkArray (length l) (nrows Psi) (fun k j => delta (nth k l 0%nat) j)).
  unfold gram, matmul. simpl. rewrite !Nat.eqb_refl. cbn.
  rewrite !Nat.eqb_refl. cbn. rewrite !Nat.eqb_refl.
  eexists. split; [exact (take_rows_Ok (identity (nrows Psi)) l Hl)|].
  split; [reflexivity|].
  split; [done|]. split; [done|]. intros a b. simpl.
  set (n := nrows Psi).
  transitivity
    (sum (fun i =>
            sum (fun k => entry Psi (nth k l 0%nat) a
                          * delta (nth k l 0%nat) i * entry Psi i b)
                (length l)) n).
  { apply sum_ext. intros i Hi. rewrite sum_scale_r.
    apply sum_ext. intros k Hk.
    rewrite (sum_ext _ (fun i' => entry Psi i' a * delta i' (nth k l 0%nat))).
    - rewrite (sum_delta_r (fun i' => entry Psi i' a) (nth k l 0%nat) n
                 (nth_in_range l n k Hl Hk)).
      reflexivity.
    - intros i' _. by rewrite delta_sym. }
  rewrite sum_swap. apply sum_ext. intros k Hk.
  rewrite (sum_ext _ (fun i => entry Psi (nth k l 0%nat) a
                               * (delta (nth k l 0%nat) i * entry Psi i b)))
    by (intros; ring).
  rewrite <- sum_scale_l.
  rewrite (sum_delta_l (fun i => entry Psi i b) (nth k l 0%nat) n
             (nth_in_range l n k Hl Hk)).
  reflexivity.
Qed.

(** The same, for a Gram matrix that is already at hand. *)
Lemma gram_entries_of (Psi C G : ndarray) (l : list nat) :
  selection_matrix (nrows Psi) l = Ok C ->
  gram Psi C = Ok G ->
  Forall (fun i => (i < nrows Psi)%nat) l /\
  nrows G = ncols Psi /\ ncols G = ncols Psi /\
  forall a b,
    entry G a b
    == sum (fun k => entry Psi (nth k l 0%nat) a * entry Psi (nth k l 0%nat) b)
           (length l).
Proof.
  intros HC HG.
  assert (Hl : Forall (fun i => (i < nrows Psi)%nat) l).
  { unfold selection_matrix in HC. by apply take_rows_inv in HC as [? _]. }
  destruct (gram_selection Psi l Hl) as (C0 & G0 & HC0 & HG0 & Hr & Hc & He).
  rewrite HC in HC0. injection HC0 as <-.
  rewrite HG in HG0. injection HG0 as <-. done.
Qed.

Lemma is_inverse_proper (G G' B : ndarray) :
  same_array G G' -> is_inverse G B -> is_inverse G' B.
Proof.
  intros (Hr & Hc & He) (Hsq & HrB & HcB & HGB & HBG).
  split; [congruence|]. split; [congruence|]. split; [congruence|].
  rewrite <- Hr. split; intros i j Hi Hj.
  - rewrite <- (HGB i j Hi Hj). apply sum_ext. intros k Hk.
    rewrite (He i k) by (try done; congruence). reflexivity.
  - rewrite <- (HBG i j Hi Hj). apply sum_ext. intros k Hk.
    rewrite (He k j) by (try done; congruence). reflexivity.
Qed.

(** X16: [Psi_measured = C @ Psi] holds the rows of [Psi] at the measured
    locations, one per entry of the list and in its order; the expression
    raises [IndexError] exactly when some listed location is not a row of
    [Psi], and never fails on shapes. *)
Theorem Psi_measured_rows (Psi : ndarray) (locations_measured : list nat) :
  (Forall (fun i => (i < nrows Psi)%nat) locations_measured ->
   exists M,
     Psi_measured Psi locations_measured = Ok M /\
     nrows M = length locations_measured /\
     ncols M = ncols Psi /\
     forall k i j, locations_measured !! k = Some i ->
                   entry M k j == entry Psi i j) /\
  (Psi_measured Psi locations_measured = Raise IndexError <->
   Exists (fun i => (nrows Psi <= i)%nat) locations_measured) /\
  Psi_measured Psi locations_measured <> Raise ValueError.
Proof.
  assert (Hok : Forall (fun i => (i < nrows Psi)%nat) locations_measured ->
    exists M,
     Psi_measured Psi locations_measured = Ok M /\
     nrows M = length locations_measured /\
     ncols M = ncols Psi /\
     forall k i j, locations_measured !! k = Some i ->
                   entry M k j == entry Psi i j).
  { intros Hl. unfold Psi_measured, selection_matrix.
    rewrite take_rows_Ok by done. cbn. unfold matmul. simpl.
    rewrite Nat.eqb_refl. eexists. split; [reflexivity|].
    split; [done|]. split; [done|]. intros k i j Hk. simpl.
    rewrite (nth_lookup_Some _ _ _ _ Hk).
    apply (sum_delta_l (fun r => entry Psi r j) i (nrows Psi)).
    rewrite Forall_forall in Hl. apply Hl.
    by apply list_elem_of_lookup_2 in Hk. }
  assert (Hbad : Exists (fun i => (nrows Psi <= i)%nat) locations_measured ->
                 Psi_measured Psi locations_measured = Raise IndexError).
  { intros Hex. apply Exists_exists in Hex as (i & Hi & Hge).
    unfold Psi_measured, selection_matrix.
    by rewrite (take_rows_Raise (identity (nrows Psi)) _ i Hi Hge). }
  destruct (decide (Forall (fun i => (i < nrows Psi)%nat) locations_measured))
    as [Hl | Hl].
  - destruct (Hok Hl) as (M & HM & _). split; [done|]. split.
    + split; [by rewrite HM|]. intros Hex. exfalso.
      apply Exists_exists in Hex as (i & Hi & Hge).
      rewrite Forall_forall in Hl. specialize (Hl i Hi). simpl in Hl. lia.
    + by rewrite HM.
  - apply not_Forall_Exists in Hl; [|apply _].
    assert (Hex : Exists (fun i => (nrows Psi <= i)%nat) locations_measured).
    { eapply Exists_impl; [exact Hl|]. intros i Hi. simpl in *. lia. }
    split; [done|]. split; [done|]. by rewrite (Hbad Hex).
Qed.

(** X18: for monitored locations that are rows of [Psi] the Gram matrix
    [Psi.T @ C.T @ C @ Psi] always evaluates, to a square matrix with one row
    per basis vector whose entry [(a, b)] is the sum, over the monitored
    locations, of the products of the entries of the basis vectors [a] and
    [b] there.  It is symmetric and its diagonal is non-negative. *)
Theorem gram_entries (Psi : ndarray) (l : list nat) :
  Forall (fun i => (i < nrows Psi)%nat) l ->
  exists C G,
    selection_matrix (nrows Psi) l = Ok C /\
    gram Psi C = Ok G /\
    nrows G = ncols Psi /\ ncols G = ncols Psi /\
    (forall a b,
       entry G a b
       == foldr (fun i acc => entry Psi i a * entry Psi i b + acc) 0 l) /\
    (forall a b, entry G a b == entry G b a) /\
    (forall a, 0 <= entry G a a).
Proof.
  intros Hl.
  destruct (gram_selection Psi l Hl) as (C & G & HC & HG & Hr & Hc & He).
  exists C, G. split; [done|]. split; [done|]. split; [done|].
  split; [done|]. split; [|split].
  - intros a b. rewrite He.
    exact (sum_nth_foldr (fun i => entry Psi i a * entry Psi i b) l).
  - intros a b. rewrite !He. apply sum_ext. intros k _. ring.
  - intros a. rewrite He. apply sum_nonneg. intros k _.
    generalize (entry Psi (nth k l 0%nat) a). intros x. nra.
Qed.

(** X19: the order in which the monitored locations are listed does not
    matter to the variance model, sorted or not: two listings of the same
    locations give the same Gram matrix, the same inverses and, entry by
    entry, the same coordinate variances. *)
Theorem gram_order_irrelevant (Psi C C' G G' : ndarray) (l l' : list nat) :
  l ≡ₚ l' ->
  selection_matrix (nrows Psi) l = Ok C ->
  selection_matrix (nrows Psi) l' = Ok C' ->
  gram Psi C = Ok G ->
  gram Psi C' = Ok G' ->
  same_array G G' /\
  (forall B, is_inverse G B -> is_inverse G' B) /\
  (forall B B', is_inverse G B -> is_inverse G' B' ->
                Forall2 Qeq (variance_with B Psi) (variance_with B' Psi)).
Proof.
  intros Hp HC HC' HG HG'.
  destruct (gram_entries_of Psi C G l HC HG) as (_ & Hr & Hc & He).
  destruct (gram_entries_of Psi C' G' l' HC' HG') as (_ & Hr' & Hc' & He').
  assert (Hsame : same_array G G').
  { split; [congruence|]. split; [congruence|]. intros a b _ _.
    rewrite He, He'.
    exact (sum_nth_perm (fun i => entry Psi i a * entry Psi i b) l l' Hp). }
  split; [done|]. split; [intros B; by apply is_inverse_proper|].
  intros B B' HB HB'. apply variance_with_proper. intros a b Ha Hb.
  symmetry.
  apply (inverse_unique G' B B' (is_inverse_proper G G' B Hsame HB) HB');
    congruence.
Qed.

(** X20: a basis vector that vanishes at every monitored location (every
    basis vector does when nothing is monitored) makes the Gram matrix
    singular.  An [np.linalg.inv] that returns nothing but inverses then
    raises, and so do the variance vector and the worst-case variance. *)
Theorem unobserved_mode_raises (inv : ndarray -> result ndarray)
    (Psi C G : ndarray) (l : list nat) (a : nat) :
  selection_matrix (nrows Psi) l = Ok C ->
  gram Psi C = Ok G ->
  (a < ncols Psi)%nat ->
  Forall (fun i => entry Psi i a == 0) l ->
  (forall B, inv G = Ok B -> is_inverse G B) ->
  ~ (exists B, is_inverse G B) /\
  exists e,
    inv G = Raise e /\
    error_variance inv Psi C = Raise e /\
    worst_coordinate_variance inv Psi C = Raise e.
Proof.
  intros HC HG Ha Hzero Hsound.
  destruct (gram_entries_of Psi C G l HC HG) as (Hl & Hr & Hc & He).
  assert (Hsing : ~ (exists B, is_inverse G B)).
  { intros (B & _ & _ & _ & HGB & _).
    rewrite Hr in HGB. specialize (HGB a a Ha Ha).
    rewrite sum_zero in HGB.
    - simpl in HGB. unfold delta in HGB. rewrite Nat.eqb_refl in HGB.
      discriminate.
    - intros k _. rewrite He. rewrite sum_zero; [ring|].
      intros k' Hk'. rewrite Forall_forall in Hzero.
      rewrite (Hzero (nth k' l 0%nat)); [ring|].
      apply list_elem_of_In, nth_In, Hk'. }
  split; [done|].
  destruct (inv G) as [B|e] eqn:HB.
  - exfalso. apply Hsing. exists B. by apply Hsound.
  - exists e. split; [done|].
    assert (HV : error_variance inv Psi C = Raise e).
    { unfold error_variance. rewrite HG. cbn. by rewrite HB. }
    split; [done|]. unfold worst_coordinate_variance. by rewrite HV.
Qed.

Lemma sum_mult (f g : nat -> Q) (r : nat) :
  sum f r * sum g r == sum (fun a => sum (fun d => f a * g d) r) r.
Proof.
  rewrite sum_scale_r. apply sum_ext. intros a _.
  rewrite sum_scale_l. reflexivity.
Qed.

(** A quadratic form in a matrix of the shape [M.T @ M] is a sum of
    squares. *)
Lemma quad_form (M : nat -> nat -> Q) (y : nat -> Q) (r m : nat) :
  sum (fun a => sum (fun d => y a * sum (fun k => M k a * M k d) m * y d) r) r
  == sum (fun k => sum (fun a => M k a * y a) r
                   * sum (fun d => M k d * y d) r) m.
Proof.
  transitivity
    (sum (fun a => sum (fun k => sum (fun d => M k a * y a * (M k d * y d)) r) m) r).
  { apply sum_ext. intros a _.
    transitivity
      (sum (fun d => sum (fun k => M k a * y a * (M k d * y d)) m) r).
    - apply sum_ext. intros d _. rewrite sum_scale_l, sum_scale_r.
      apply sum_ext. intros k _. ring.
    - exact (sum_swap (fun d k => M k a * y a * (M k d * y d)) r m). }
  transitivity
    (sum (fun k => sum (fun a => sum (fun d => M k a * y a * (M k d * y d)) r) r) m).
  { exact (sum_swap
             (fun a k => sum (fun d => M k a * y a * (M k d * y d)) r) r m). }
  apply sum_ext. intros k _. symmetry.
  exact (sum_mult (fun a => M k a * y a) (fun d => M k d * y d) r).
Qed.

(** X21: whenever the variance vector is computed, with monitored locations
    that are rows of [Psi] and an [np.linalg.inv] result that is an inverse
    of the Gram matrix, it has one entry per location and no entry is
    negative; nor is the worst-case variance. *)
Theorem variance_nonneg (inv : ndarray -> result ndarray)
    (Psi C G B : ndarray) (l : list nat) :
  selection_matrix (nrows Psi) l = Ok C ->
  gram Psi C = Ok G ->
  inv G = Ok B ->
  is_inverse G B ->
  exists V,
    error_variance inv Psi C = Ok V /\
    length V = nrows Psi /\
    Forall (fun v => 0 <= v) V /\
    forall w, worst_coordinate_variance inv Psi C = Ok w -> 0 <= w.
Proof.
  intros HC HG HB Hinv.
  pose proof (error_variance_with inv Psi C G B HG HB Hinv) as HV.
  destruct (gram_entries_of Psi C G l HC HG) as (Hl & Hr & Hc & He).
  destruct Hinv as (_ & _ & _ & HGB & _). rewrite Hr in HGB.
  set (r := ncols Psi) in *.
  assert (Hall : Forall (fun v => 0 <= v) (variance_with B Psi)).
  { unfold variance_with. apply Forall_fmap, Forall_forall. intros i _.
    simpl. fold r.
    set (p := fun a => entry Psi i a).
    set (y := fun a => sum (fun c => entry B a c * p c) r).
    set (M := fun k a => entry Psi (nth k l 0%nat) a).
    assert (HA : sum (fun b => sum (fun a => p a * entry B a b) r * p b) r
                 == sum (fun a => p a * y a) r).
    { transitivity
        (sum (fun b => sum (fun a => p a * (entry B a b * p b)) r) r).
      - apply sum_ext. intros b _. rewrite sum_scale_r.
        apply sum_ext. intros a _. ring.
      - rewrite (sum_swap (fun b a => p a * (entry B a b * p b)) r r).
        apply sum_ext. intros a _. unfold y. rewrite sum_scale_l.
        reflexivity. }
    assert (HB' : forall a, (a < r)%nat ->
                            p a == sum (fun d => entry G a d * y d) r).
    { intros a Ha. symmetry.
      transitivity
        (sum (fun d => sum (fun c => entry G a d * entry B d c * p c) r) r).
      { apply sum_ext. intros d _. unfold y. rewrite sum_scale_l.
        apply sum_ext. intros c _. ring. }
      rewrite (sum_swap (fun d c => entry G a d * entry B d c * p c) r r).
      transitivity (sum (fun c => delta a c * p c) r).
      - apply sum_ext. intros c Hc'. rewrite <- sum_scale_r.
        by rewrite (HGB a c Ha Hc').
      - exact (sum_delta_l p a r Ha). }
    assert (HC' : sum (fun a => p a * y a) r
                  == sum (fun k => sum (fun a => M k a * y a) r
                                   * sum (fun d => M k d * y d) r) (length l)).
    { rewrite <- (quad_form M y r (length l)).
      apply sum_ext. intros a Ha. rewrite (HB' a Ha), sum_scale_r.
      apply sum_ext. intros d _. rewrite (He a d). unfold M. ring. }
    change (0 <= sum (fun b => sum (fun a => p a * entry B a b) r * p b) r).
    rewrite HA, HC'. apply sum_nonneg. intros k _.
    generalize (sum (fun a => M k a * y a) r). intros x. nra. }
  exists (variance_with B Psi). split; [done|].
  split; [apply variance_with_length|]. split; [done|].
  intros w. unfold worst_coordinate_variance. rewrite HV. cbn. intros Hw.
  destruct (variance_with B Psi) as [|x t] eqn:Hv; [done|].
  destruct (amax_spec (x :: t)) as (w' & Hw' & Hin & _); [done|].
  rewrite Hw in Hw'. injection Hw' as <-.
  rewrite Forall_forall in Hall. by apply Hall.
Qed.

Lemma seq_sorted_le (j m : nat) : StronglySorted le (seq j m).
Proof.
  revert j. induction m as [|m IH]; intros j; simpl; constructor; [done|].
  apply Forall_forall. intros x Hx. apply elem_of_seq in Hx. lia.
Qed.

(** Sorting a listing of all the locations gives [0, ..., n - 1]. *)
Lemma np_sort_all (l : list nat) (n : nat) :
  l ≡ₚ seq 0 n -> np_sort l = seq 0 n.
Proof.
  intros Hp. apply (StronglySorted_unique le).
  - apply np_sort_sorted.
  - apply seq_sorted_le.
  - unfold np_sort. by rewrite merge_sort_Permutation.
Qed.

Lemma inv_variance_eq (inv : ndarray -> result ndarray) (Psi G0 B0 : ndarray) :
  matmul (transpose Psi) Psi = Ok G0 ->
  inv G0 = Ok B0 ->
  is_inverse G0 B0 ->
  fully_monitored_network_max_variance_inv inv Psi
  = amax (variance_with B0 Psi).
Proof.
  intros HG HinvG (_ & HrB & HcB & _).
  apply matmul_inv in HG as HG'. destruct HG' as (_ & HrG & _). simpl in HrG.
  unfold fully_monitored_network_max_variance_inv.
  rewrite HG. cbn. rewrite HinvG. cbn.
  destruct (matmul_Ok Psi B0) as (m1 & -> & Hr1 & Hc1 & He1); [congruence|].
  cbn.
  destruct (matmul_Ok m1 (transpose Psi)) as (m2 & -> & Hr2 & Hc2 & He2);
    [simpl; congruence|].
  cbn. f_equal. unfold diag, variance_with.
  rewrite Hr2, Hc2, Hr1. simpl. rewrite Nat.min_id.
  rewrite He2, He1, Hc1, HcB, HrG. reflexivity.
Qed.

(** X22: with every location monitored, listed in any order, the worst-case
    variance of the deployed network is that of the fully monitored network:
    the value [np.diag(Psi @ inv(Psi.T @ Psi) @ Psi.T).max()] of the
    reconstruction branches and, for a basis with orthonormal columns, the
    value [diagonal(Psi @ Psi.T).max()] of the network-design branch. *)
Theorem full_deployment_variance (inv : ndarray -> result ndarray)
    (Psi C G B : ndarray) (l : list nat) :
  (0 < nrows Psi)%nat ->
  l ≡ₚ seq 0 (nrows Psi) ->
  C_matrix (nrows Psi) (np_sort l) = Ok C ->
  gram Psi C = Ok G ->
  inv G = Ok B ->
  is_inverse G B ->
  exists w,
    deployed_network_max_variance inv Psi l = Ok w /\
    (forall G0 B0,
       matmul (transpose Psi) Psi = Ok G0 ->
       inv G0 = Ok B0 ->
       is_inverse G0 B0 ->
       exists v, fully_monitored_network_max_variance_inv inv Psi = Ok v /\
                 w == v) /\
    (orthonormal Psi ->
     exists v, fully_monitored_network_max_variance Psi = Ok v /\ w == v).
Proof.
  intros Hn Hp HC HG HB Hinv.
  pose proof (error_variance_with inv Psi C G B HG HB Hinv) as HV.
  destruct (amax_spec (variance_with B Psi)) as (w & Hw & _).
  { intros Hnil. apply (f_equal length) in Hnil.
    rewrite variance_with_length in Hnil. simpl in Hnil. lia. }
  exists w.
  assert (Hdep : deployed_network_max_variance inv Psi l = Ok w).
  { unfold deployed_network_max_variance. rewrite HC. cbn.
    unfold worst_coordinate_variance. rewrite HV. cbn. exact Hw. }
  split; [done|].
  unfold C_matrix in HC. rewrite (np_sort_all l (nrows Psi) Hp) in HC.
  destruct (gram_entries_of Psi C G _ HC HG) as (_ & Hr & Hc & He).
  assert (HeG : forall a b,
             entry G a b
             == sum (fun i => entry Psi i a * entry Psi i b) (nrows Psi)).
  { intros a b. rewrite He, length_seq. apply sum_ext. intros k Hk.
    by rewrite seq_nth. }
  split.
  - intros G0 B0 HG0 HB0 Hinv0.
    rewrite (inv_variance_eq inv Psi G0 B0 HG0 HB0 Hinv0).
    apply matmul_inv in HG0 as (_ & Hr0 & Hc0 & He0). simpl in *.
    assert (Hsame : same_array G G0).
    { split; [congruence|]. split; [congruence|]. intros a b _ _.
      rewrite HeG, He0. reflexivity. }
    apply (amax_proper (variance_with B Psi)); [|done].
    apply variance_with_proper. intros a b Ha Hb. symmetry.
    apply (inverse_unique G0 B B0 (is_inverse_proper G G0 B Hsame Hinv) Hinv0);
      congruence.
  - intros Horth.
    assert (HBd : forall a b, (a < ncols Psi)%nat -> (b < ncols Psi)%nat ->
                              entry B a b == delta a b).
    { intros a b Ha Hb. destruct Hinv as (_ & _ & _ & HGB & _).
      rewrite Hr in HGB. rewrite <- (HGB a b Ha Hb).
      rewrite <- (sum_delta_l (fun k => entry B k b) a (ncols Psi) Ha).
      apply sum_ext. intros k Hk. rewrite HeG.
      by rewrite (Horth a k Ha Hk). }
    destruct (matmul_Ok Psi (transpose Psi)) as (m & Hm & Hrm & Hcm & Hem);
      [done|].
    assert (Hdiag : Forall2 Qeq (diag m) (variance_with B Psi)).
    { unfold diag, variance_with. rewrite Hrm, Hcm. simpl. rewrite Nat.min_id.
      apply map_Qeq. intros i _. rewrite Hem. simpl.
      apply sum_ext. intros b Hb.
      rewrite (sum_ext (fun a => entry Psi i a * entry B a b)
                       (fun a => entry Psi i a * delta a b)).
      - by rewrite (sum_delta_r (fun a => entry Psi i a) b (ncols Psi) Hb).
      - intros a Ha. by rewrite (HBd a b Ha Hb). }
    destruct (amax_spec (diag m)) as (v & Hv & _).
    { intros Hnil. apply (f_equal length) in Hnil. unfold diag in Hnil.
      rewrite length_map, length_seq, Hrm, Hcm in Hnil. simpl in Hnil. lia. }
    destruct (amax_proper _ _ _ Hdiag Hv) as (v' & Hv' & Hvv').
    rewrite Hw in Hv'. injection Hv' as <-.
    unfold fully_monitored_network_max_variance. rewrite Hm. cbn.
    exists v. split; [done|]. by symmetry.
Qed.

End LinalgExtras.

(** * Facts about the reconstruction from singular vectors *)

Section ProjectionFacts.
Import Linalg Scripts.

Local Open Scope Q_scope.

Lemma broadcast_dim_same (n : nat) : broadcast_dim n n = Ok n.
Proof. unfold broadcast_dim. by rewrite Nat.eqb_refl. Qed.

Lemma broadcast_dim_one (m : nat) : broadcast_dim m 1 = Ok m.
Proof.
  unfold broadcast_dim. destruct (Nat.eqb_spec m 1) as [-> | _]; [done|].
  by rewrite Nat.eqb_refl.
Qed.

Lemma pick_in (d i : nat) : (i < d)%nat -> pick d i = i.
Proof. unfold pick. destruct (Nat.eqb_spec d 1); [lia | done]. Qed.

(** A snapshot matrix whose centred form has the coefficients [A] in the
    first [s] columns of [U] is its own prediction. *)
Lemma pred_on_span (U mean_values X : ndarray) (s : nat)
    (A : nat -> nat -> Q) :
  nrows X = nrows U ->
  nrows mean_values = nrows U ->
  ncols mean_values = 1%nat ->
  orthonormal (take_cols U s) ->
  (forall i j, (i < nrows X)%nat -> (j < ncols X)%nat ->
     entry X i j - entry mean_values i 0%nat
     == sum (fun k => entry U i k * A k j) (ncols (take_cols U s))) ->
  exists P,
    snapshots_matrix_val_pred_svd U mean_values X s = Ok P /\
    nrows P = nrows X /\ ncols P = ncols X /\
    forall i j, (i < nrows X)%nat -> (j < ncols X)%nat ->
                entry P i j == entry X i j.
Proof.
  destruct U as [n cU u], mean_values as [n1 c1 mu], X as [n2 m x].
  simpl. intros -> -> -> Horth Hspan.
  unfold orthonormal in Horth. simpl in Horth.
  set (r := Nat.min s cU) in *.
  unfold snapshots_matrix_val_pred_svd, subtract, add, broadcast2. simpl.
  rewrite broadcast_dim_same, broadcast_dim_one. cbn.
  unfold matmul. simpl. rewrite Nat.eqb_refl. cbn. rewrite Nat.eqb_refl. cbn.
  rewrite broadcast_dim_same, broadcast_dim_one. cbn.
  eexists. split; [reflexivity|]. simpl. split; [done|]. split; [done|].
  intros i j Hi Hj. rewrite !(pick_in n i Hi), !(pick_in m j Hj).
  fold r.
  assert (Hco : forall a, (a < r)%nat ->
            sum (fun i' => u i' a * (x (pick n i') j
                                     - mu (pick n i') 0%nat)) n
            == A a j).
  { intros a Ha.
    transitivity (sum (fun i' => sum (fun k => u i' a * u i' k * A k j) r) n).
    { apply sum_ext. intros i' Hi'. rewrite (pick_in n i' Hi').
      rewrite (Hspan i' j Hi' Hj).
      rewrite sum_scale_l. apply sum_ext. intros k _. ring. }
    rewrite (sum_swap (fun i' k => u i' a * u i' k * A k j) n r).
    transitivity (sum (fun k => delta a k * A k j) r).
    - apply sum_ext. intros k Hk. rewrite <- sum_scale_r.
      by rewrite (Horth a k Ha Hk).
    - exact (sum_delta_l (fun k => A k j) a r Ha). }
  rewrite (sum_ext _ (fun a => u i a * A a j)).
  - rewrite <- (Hspan i j Hi Hj). ring.
  - intros a Ha. by rewrite (Hco a Ha).
Qed.

(** X23: a validation snapshot matrix whose centred form lies in the span
    of the first [s] columns of [U], these being orthonormal, is
    reconstructed exactly: the prediction of [signal_reconstruction_svd]
    evaluates to the snapshot matrix itself and the error is zero at every
    location and time. *)
Theorem svd_reconstruction_exact (U mean_values X : ndarray) (s : nat)
    (A : nat -> nat -> Q) :
  nrows X = nrows U ->
  nrows mean_values = nrows U ->
  ncols mean_values = 1%nat ->
  orthonormal (take_cols U s) ->
  (forall i j, (i < nrows X)%nat -> (j < ncols X)%nat ->
     entry X i j - entry mean_values i 0%nat
     == sum (fun k => entry U i k * A k j) (ncols (take_cols U s))) ->
  exists P E,
    snapshots_matrix_val_pred_svd U mean_values X s = Ok P /\
    same_array P X /\
    svd_error U mean_values X s = Ok E /\
    nrows E = nrows X /\ ncols E = ncols X /\
    forall i j, (i < nrows X)%nat -> (j < ncols X)%nat -> entry E i j == 0.
Proof.
  intros HX Hm Hc Horth Hspan.
  destruct (pred_on_span U mean_values X s A HX Hm Hc Horth Hspan)
    as (P & HP & Hr & Hcl & He).
  exists P. unfold svd_error. rewrite HP. cbn.
  unfold subtract, broadcast2. rewrite Hr, Hcl, !broadcast_dim_same. cbn.
  eexists. split; [done|]. split.
  { split; [done|]. split; [done|]. intros i j Hi Hj.
    apply He; congruence. }
  split; [reflexivity|]. simpl. split; [done|]. split; [done|].
  intros i j Hi Hj. rewrite !(pick_in _ i Hi), !(pick_in _ j Hj).
  rewrite (He i j Hi Hj). ring.
Qed.

(** X24: with orthonormal first [s] columns of [U], predicting is a
    projection: the prediction of a prediction is that prediction, so a
    second reconstruction changes nothing. *)
Theorem svd_reconstruction_idempotent (U mean_values X P : ndarray)
    (s : nat) :
  nrows mean_values = nrows U ->
  ncols mean_values = 1%nat ->
  orthonormal (take_cols U s) ->
  snapshots_matrix_val_pred_svd U mean_values X s = Ok P ->
  exists P',
    snapshots_matrix_val_pred_svd U mean_values P s = Ok P' /\
    same_array P' P.
Proof.
  intros Hm Hc Horth HP.
  unfold snapshots_matrix_val_pred_svd in HP.
  destruct (subtract X mean_values) as [Xc|] eqn:HXc; cbn in HP; [|done].
  destruct (matmul (transpose (take_cols U s)) Xc) as [m1|] eqn:H1;
    cbn in HP; [|done].
  destruct (matmul (take_cols U s) m1) as [m2|] eqn:H2; cbn in HP; [|done].
  apply matmul_inv in H2 as (_ & Hr2 & Hc2 & He2). simpl in Hr2, He2.
  unfold add, broadcast2 in HP. rewrite Hr2, Hm, Hc in HP.
  rewrite broadcast_dim_same in HP. cbn in HP.
  destruct (broadcast_dim (ncols m2) 1) as [c|] eqn:Hbc; cbn in HP; [|done].
  rewrite broadcast_dim_one in Hbc. injection Hbc as <-.
  injection HP as <-.
  destruct (pred_on_span U mean_values
              (mkArray (nrows U) (ncols m2)
                 (fun i j =>
                    entry m2 (pick (nrows U) i) (pick (ncols m2) j)
                    + entry mean_values (pick (nrows U) i) (pick 1 j)))
              s (entry m1))
    as (P' & HP' & Hr & Hcl & He); try done.
  - simpl. intros i j Hi Hj.
    rewrite (pick_in _ i Hi), (pick_in _ j Hj), He2.
    assert (Hpick1 : pick 1 j = 0%nat) by reflexivity. rewrite Hpick1.
    ring.
  - exists P'. split; [done|]. split; [done|]. split; [done|].
    intros i j Hi Hj. apply He; congruence.
Qed.

End ProjectionFacts.

(** * Concrete instances of the further facts *)

Section Instances.
Import Numpy IRL1 RecoverMap Linalg Scripts.

Ltac entries2 :=
  let i := fresh "i" in
  let j := fresh "j" in
  intros i j ? ?;
  destruct i as [|[|i]]; destruct j as [|[|j]];
  simpl in *; try lia; vm_compute; reflexivity.

(** X1, instance: both locations monitored and the counter at zero. *)
Lemma forced_freeze_IndexError_witness :
  check_convergence (1 # 10) 1 both_monitored = Raise IndexError <->
  forall j, j < length (h_value both_monitored) ->
            j ∈ sp_monitored both_monitored.
Proof.
  apply (forced_freeze_IndexError (1 # 10) 1 both_monitored). reflexivity.
Defined.

(** X2, instance: three classified indices for two locations. *)
Lemma overshoot_never_returns_witness :
  loop 2 (1 # 10) 1 hs_steady 5 0 overshot <> Returned ([0; 1], [1]).
Proof.
  apply (overshoot_never_returns 2 (1 # 10) 1 hs_steady 5 0 overshot).
  vm_compute. lia.
Defined.

(** X3, instance: the run on [hs_steady]. *)
Lemma returned_lists_witness :
  length [0; 1] + length (@nil nat) = 2 /\
  [] `prefix_of` [0; 1] /\ [] `prefix_of` (@nil nat) /\
  (NoDup (@nil nat) -> NoDup [0; 1]) /\
  (NoDup (@nil nat) -> NoDup (@nil nat)).
Proof.
  apply (returned_lists 2 (1 # 10) 1 hs_steady 5 true
           [0; 0]%Q [10; 10]%Q [] [] [0; 1] []).
  vm_compute. reflexivity.
Defined.

(** X4, instance: the first pass of the run on [hs_steady]. *)
Lemma completed_pass_in_range_witness :
  Forall (fun i => i < length (hs_steady 0)) (locations_monitored steady1) /\
  Forall (fun i => i < length (hs_steady 0))
         (IRL1.locations_unmonitored steady1) /\
  Forall (fun i => i < length (hs_steady 0))
         (locations_monitored (start2 true)) /\
  Forall (fun i => i < length (hs_steady 0))
         (IRL1.locations_unmonitored (start2 true)).
Proof.
  apply (completed_pass_in_range (1 # 10) 1 (hs_steady 0) (start2 true)
           steady1).
  exact (steady1_pass 0).
Defined.

(** X5, instance: the weights after that pass. *)
Lemma weights_bounded_witness :
  length (w_value steady1) = length (hs_steady 0) /\
  Forall (fun w => 1 / (1 + (1 # 10)) <= w <= 1 / (1 # 10))%Q
         (w_value steady1).
Proof.
  apply (weights_bounded (1 # 10) 1 (hs_steady 0) (start2 true) steady1).
  - exact (steady1_pass 0).
  - reflexivity.
  - repeat constructor; unfold Qle; simpl; lia.
Defined.

(** X6, instance: two passes of the run on [hs_steady]. *)
Lemma counter_bounded_witness :
  it steady2 <= 1 /\ (0 < 2 -> 1 <= it steady2).
Proof.
  apply (counter_bounded 2 (1 # 10) 1 hs_steady (start2 true) 2 steady2).
  - exact reaches_steady2.
  - lia.
  - simpl. lia.
Defined.

(** X7, instance: a solver vector with three entries for two locations. *)
Lemma shape_mismatch_raises_witness :
  outer_pass (1 # 10) 1 [1; 1; 1]%Q (start2 true) = Raise ValueError.
Proof.
  apply (shape_mismatch_raises (1 # 10) 1 [1; 1; 1]%Q (start2 true));
    simpl; lia.
Defined.

(** X8, instance: the pass that freezes the second location by force. *)
Lemma pass_additions_witness :
  IRL1.locations_unmonitored steady2 =
    IRL1.locations_unmonitored steady1
      ++ fresh (IRL1.locations_unmonitored steady1)
               (below (1 # 10) (hs_steady 1)) /\
  exists forced,
    locations_monitored steady2 =
      (locations_monitored steady1
         ++ fresh (locations_monitored steady1)
                  (above (1 # 10) (hs_steady 1))) ++ forced /\
    length forced <= 1 /\
    (forall l, sp_locations_monitored steady1 = Own l -> forced = []) /\
    (stalled (1 # 10) 1
       (update_sets (1 # 10) (solve (hs_steady 1) steady1)) = Ok false ->
     forced = []).
Proof.
  apply (pass_additions (1 # 10) 1 (hs_steady 1) steady1 steady2).
  exact (steady2_pass 1).
Defined.

(** X9, instance: a mask that lists position 0 twice. *)
Lemma recover_map_IndexError_witness :
  recover_vect nat 0 [7; 8] [0; 0] = Raise IndexError /\
  recover_map nat 0 [7; 8] [0; 0] 2 2 = Raise IndexError.
Proof.
  apply (recover_map_IndexError 0 [7; 8] [0; 0] 2 2).
  intros [Hnd _]. apply NoDup_cons in Hnd as [Hn _]. apply Hn.
  apply list_elem_of_here.
Defined.

(** X10, instance: three positions for a 2-by-2 picture. *)
Lemma recover_map_ValueError_witness :
  recover_map nat 0 [7; 8] [1] 2 2 = Raise ValueError.
Proof.
  apply (recover_map_ValueError 0 [7; 8] [1] 2 2).
  - apply NoDup_singleton.
  - repeat constructor.
  - simpl. lia.
Defined.

Local Open Scope Q_scope.

(** X14, instance: the singular values 3 and 1. *)
Lemma cumulative_energy_curve_witness :
  length (cumulative_energy [3; 1]) = length [3; 1] /\
  StronglySorted Qle (cumulative_energy [3; 1]) /\
  Forall (fun c => 0 <= c <= 1) (cumulative_energy [3; 1]) /\
  exists c, last (cumulative_energy [3; 1]) = Some c /\ c == 1.
Proof.
  apply (cumulative_energy_curve [3; 1]).
  - repeat constructor; unfold Qle; simpl; lia.
  - reflexivity.
Defined.

(** X15, instance: the same singular values. *)
Lemma sing_vals_normalized_range_witness :
  exists w,
    sing_vals_normalized [3; 1] = Ok w /\
    length w = length [3; 1] /\
    Forall (fun x => 0 <= x <= 1) w /\
    exists x, x ∈ w /\ x == 1.
Proof.
  apply (sing_vals_normalized_range [3; 1]).
  - repeat constructor; unfold Qle; simpl; lia.
  - exists 3. split; [apply list_elem_of_here | reflexivity].
Defined.

(** X18, instance: two of the three locations of [Psi_demo]. *)
Lemma gram_entries_witness :
  exists C G,
    selection_matrix (nrows Psi_demo) [2; 0]%nat = Ok C /\
    gram Psi_demo C = Ok G /\
    nrows G = ncols Psi_demo /\ ncols G = ncols Psi_demo /\
    (forall a b,
       entry G a b
       == foldr (fun i acc => entry Psi_demo i a * entry Psi_demo i b + acc)
                0 [2; 0]%nat) /\
    (forall a b, entry G a b == entry G b a) /\
    (forall a, 0 <= entry G a a).
Proof.
  apply (gram_entries Psi_demo [2; 0]%nat).
  repeat constructor.
Defined.

(** X19, instance: the same pair in both orders. *)
Lemma gram_order_irrelevant_witness :
  same_array swap_G demo_G /\
  (forall B, is_inverse swap_G B -> is_inverse demo_G B) /\
  (forall B B', is_inverse swap_G B -> is_inverse demo_G B' ->
                Forall2 Qeq (variance_with B Psi_demo)
                            (variance_with B' Psi_demo)).
Proof.
  apply (gram_order_irrelevant Psi_demo swap_C demo_C swap_G demo_G
           [2; 0]%nat [0; 2]%nat).
  - apply perm_swap.
  - reflexivity.
  - reflexivity.
  - reflexivity.
  - reflexivity.
Defined.

(** X20, instance: the basis vector [(1, 0)] with only the second location
    monitored. *)
Lemma unobserved_mode_raises_witness :
  ~ (exists B, is_inverse sing_G B) /\
  exists e,
    inv_exact sing_G = Raise e /\
    error_variance inv_exact Psi_sing sing_C = Raise e /\
    worst_coordinate_variance inv_exact Psi_sing sing_C = Raise e.
Proof.
  apply (unobserved_mode_raises inv_exact Psi_sing sing_C sing_G
           [1]%nat 0%nat).
  - reflexivity.
  - reflexivity.
  - simpl. lia.
  - repeat constructor.
  - intros B HB. vm_compute in HB. discriminate.
Defined.

(** X21, instance: [Psi_demo] with the locations 0 and 2 monitored. *)
Lemma variance_nonneg_witness :
  exists V,
    error_variance inv_exact Psi_demo demo_C = Ok V /\
    length V = nrows Psi_demo /\
    Forall (fun v => 0 <= v) V /\
    forall w, worst_coordinate_variance inv_exact Psi_demo demo_C = Ok w ->
              0 <= w.
Proof.
  apply (variance_nonneg inv_exact Psi_demo demo_C demo_G demo_B
           [0; 2]%nat).
  - reflexivity.
  - reflexivity.
  - reflexivity.
  - exact demo_B_inverse.
Defined.

Lemma full_B_inverse : is_inverse full_G full_B.
Proof.
  split; [reflexivity|]. split; [reflexivity|]. split; [reflexivity|].
  split; entries2.
Qed.

(** X22, instance: the three locations of [Psi_orth], all monitored. *)
Lemma full_deployment_variance_witness :
  exists w,
    deployed_network_max_variance inv_exact Psi_orth [1; 0; 2]%nat = Ok w /\
    (forall G0 B0,
       matmul (transpose Psi_orth) Psi_orth = Ok G0 ->
       inv_exact G0 = Ok B0 ->
       is_inverse G0 B0 ->
       exists v,
         fully_monitored_network_max_variance_inv inv_exact Psi_orth = Ok v /\
         w == v) /\
    (orthonormal Psi_orth ->
     exists v, fully_monitored_network_max_variance Psi_orth = Ok v /\ w == v).
Proof.
  apply (full_deployment_variance inv_exact Psi_orth full_C full_G full_B
           [1; 0; 2]%nat).
  - simpl. lia.
  - apply perm_swap.
  - reflexivity.
  - reflexivity.
  - reflexivity.
  - exact full_B_inverse.
Defined.

Ltac entries3 :=
  let i := fresh "i" in
  let j := fresh "j" in
  intros i j ? ?;
  destruct i as [|[|[|i]]]; destruct j as [|[|[|j]]];
  simpl in *; try lia; vm_compute; reflexivity.

(** X23, instance: a snapshot in the span of both columns of [Psi_orth]. *)
Lemma svd_reconstruction_exact_witness :
  exists P E,
    snapshots_matrix_val_pred_svd Psi_orth mean_ones X_span 2 = Ok P /\
    same_array P X_span /\
    svd_error Psi_orth mean_ones X_span 2 = Ok E /\
    nrows E = nrows X_span /\ ncols E = ncols X_span /\
    forall i j, (i < nrows X_span)%nat -> (j < ncols X_span)%nat ->
                entry E i j == 0.
Proof.
  apply (svd_reconstruction_exact Psi_orth mean_ones X_span 2 (entry A_span)).
  - reflexivity.
  - reflexivity.
  - reflexivity.
  - unfold orthonormal. entries3.
  - entries3.
Defined.

(** X24, instance: the same snapshot predicted from the first column only. *)
Lemma svd_reconstruction_idempotent_witness :
  exists P',
    snapshots_matrix_val_pred_svd Psi_orth mean_ones P_first 1 = Ok P' /\
    same_array P' P_first.
Proof.
  apply (svd_reconstruction_idempotent Psi_orth mean_ones X_span P_first 1).
  - reflexivity.
  - reflexivity.
  - unfold orthonormal. entries3.
  - reflexivity.
Defined.

End Instances.
